(** * gemini.py: batch probing of API keys

    A shallow embedding of [src/gemini.py] and the properties of its
    probe ([test_key]), its dispatcher ([worker], [main_async]) and its
    report step.

    Conventions of the embedding.
    - A Python [str] is a [string]; every [ascii] stands for one character
      (a code point below 256), so [String.length] is Python's [len] and
      [String.compare] is Python's ordering of strings.
    - A Python [int] is a [Z]; the attempt counter of the retry loop, which
      ranges over [range(1, MAX_RETRIES + 1)], is a [nat].
    - A Python [float] is a primitive binary64 [float].
    - The network is an oracle: what one pass through the [try] block of
      [test_key] ends in is an [Outcome].
    - The wall clock ([time.time], the [_elapsed] entry of a result) is not
      modelled. *)

From Stdlib Require Import ZArith Floats Ascii.
From stdpp Require Import gmap strings list sorting.

Local Open Scope string_scope.
Local Open Scope Z_scope.

(** ** Constants *)

Definition DEFAULT_CONCURRENCY : Z := 20.
Definition DEFAULT_TIMEOUT : Z := 10.
Definition MAX_RETRIES : nat := 3.
Definition INITIAL_BACKOFF : float := 1%float.
Definition BACKOFF_FACTOR : float := 2%float.

(** ** Data model *)

(** The four values the ["status"] entry of a result takes. *)
Inductive Status := valid | invalid | model_not_found | error.

Global Instance Status_eq_dec : EqDecision Status.
Proof. solve_decision. Defined.

Definition status_name (s : Status) : string :=
  match s with
  | valid => "valid"
  | invalid => "invalid"
  | model_not_found => "model_not_found"
  | error => "error"
  end.

(** The dict [test_key] returns. *)
Record Result := mkResult {
  key : string;
  status : Status;
  http_status : Z;
  detail : string
}.

(** What one pass through the [try] block ends in: the response was read
    ([resp.status], [await resp.text()]), or an exception was raised and
    is caught by the first [except] clause that matches it. [e] is
    [str(e)]. *)
Inductive Outcome :=
| Response (code : Z) (text : string)
| TimeoutError
| ClientError (e : string)
| OtherException (e : string).

(** [s[:n]] *)
Definition slice_to (n : nat) (s : string) : string := String.substring 0 n s.

(** ** test_key *)

(** One iteration of the [for attempt in range(...)] loop either executes a
    [return], or sleeps for [delay] and executes [continue] with the
    updated backoff. *)
Inductive Iteration :=
| Return (r : Result)
| Continue (delay : float) (backoff' : float).

Definition attempt_body (k : string) (attempt : nat) (backoff : float)
    (o : Outcome) : Iteration :=
  match o with
  | Response code text =>
      if (200 <=? code) && (code <? 300) then
        Return (mkResult k valid code "OK")
      else if (code =? 401) || (code =? 403) then
        Return (mkResult k invalid code (slice_to 500 text))
      else if code =? 404 then
        Return (mkResult k model_not_found code (slice_to 500 text))
      else if (code =? 429) && (attempt <? MAX_RETRIES)%nat then
        Continue backoff (backoff * BACKOFF_FACTOR)%float
      else
        Return (mkResult k error code (slice_to 500 text))
  | TimeoutError =>
      if (attempt <? MAX_RETRIES)%nat then
        Continue backoff (backoff * BACKOFF_FACTOR)%float
      else
        Return (mkResult k error (-1) "Timeout")
  | ClientError e =>
      if (attempt <? MAX_RETRIES)%nat then
        Continue backoff (backoff * BACKOFF_FACTOR)%float
      else
        Return (mkResult k error (-1) ("ClientError: " +:+ slice_to 300 e))
  | OtherException e =>
      Return (mkResult k error (-2) ("Unexpected: " +:+ slice_to 300 e))
  end.

(** What a probe does that the outside can see: a POST request (tagged with
    the attempt counter) or a sleep. *)
Inductive Event :=
| Post (attempt : nat)
| Sleep (delay : float).

(** The loop over the attempts that are left. [net attempt] is the outcome
    of the request made on that attempt. When the attempts run out without
    a [return] the Python function returns [None]. *)
Fixpoint test_key_loop (k : string) (net : nat → Outcome)
    (attempts : list nat) (backoff : float) : list Event * option Result :=
  match attempts with
  | [] => ([], None)
  | attempt :: rest =>
      match attempt_body k attempt backoff (net attempt) with
      | Return r => ([Post attempt], Some r)
      | Continue delay backoff' =>
          let '(tr, r) := test_key_loop k net rest backoff' in
          (Post attempt :: Sleep delay :: tr, r)
      end
  end.

Definition test_key (k : string) (net : nat → Outcome)
    : list Event * option Result :=
  test_key_loop k net (seq 1 MAX_RETRIES) INITIAL_BACKOFF.

(** The requests and the sleeps of a trace. *)
Definition posts (tr : list Event) : list nat :=
  omap (λ e, match e with Post a => Some a | Sleep _ => None end) tr.

Definition sleeps (tr : list Event) : list float :=
  omap (λ e, match e with Sleep d => Some d | Post _ => None end) tr.

(** The conditions under which [attempt_body] may retry. *)
Definition retryable (o : Outcome) : Prop :=
  match o with
  | Response code _ => code = 429
  | TimeoutError | ClientError _ => True
  | OtherException _ => False
  end.

(** ** Reading the keys *)

(** [str.isspace] on the characters below 256: tab to carriage return, the
    four separators 28 to 31, the space, NEL and the no-break space. *)
Definition is_space (c : ascii) : bool :=
  let n := nat_of_ascii c in
  ((9 <=? n) && (n <=? 13) || (28 <=? n) && (n <=? 32) ||
   (n =? 133) || (n =? 160))%nat.

Fixpoint lstrip (s : string) : string :=
  match s with
  | EmptyString => EmptyString
  | String c s' => if is_space c then lstrip s' else s
  end.

Fixpoint rstrip (s : string) : string :=
  match s with
  | EmptyString => EmptyString
  | String c s' =>
      match rstrip s' with
      | EmptyString => if is_space c then EmptyString else String c EmptyString
      | t => String c t
      end
  end.

(** [s.strip()] *)
Definition strip (s : string) : string := rstrip (lstrip s).

(** [[line.strip() for line in f if line.strip()]], where [lines] are the
    lines the file yields; a string counts as true when it is not empty. *)
Definition read_keys (lines : list string) : list string :=
  strip <$> filter (λ line, strip line ≠ EmptyString) lines.

(** ** The dispatcher *)

(** Where the task of one key stands. A task is suspended at one of its
    [await]s: at the entry of [async with semaphore], inside [session.post]
    or [resp.text] of the current attempt, or inside [asyncio.sleep]. The
    loop of [test_key] is kept as the attempt in progress and the attempts
    left. *)
Inductive Task :=
| Waiting
| Posting (attempt : nat) (rest : list nat) (backoff : float)
| Sleeping (delay : float) (rest : list nat) (backoff : float)
| Finished
| Raised.

(** The fields of a progress line that [worker] prints. *)
Record ProgressLine := mkProgressLine {
  p_idx : nat;
  p_total : nat;
  p_key : string;
  p_status : Status;
  p_http_status : Z
}.

(** The objects the tasks share, all created by [main_async]: the counter
    of the semaphore, the list [results], the set [success_set]; and the
    lines printed so far. *)
Record State := mkState {
  tasks : list Task;
  semaphore : Z;
  results : list Result;
  success_set : gset string;
  console : list ProgressLine
}.

(** What the event loop and the network can do next. *)
Inductive Action :=
| Acquire (i : nat)
| Receive (i : nat) (o : Outcome)
| Wake (i : nat).

Definition set_task (i : nat) (t : Task) (σ : State) : State :=
  mkState (<[i := t]> (tasks σ)) (semaphore σ) (results σ)
          (success_set σ) (console σ).

(** Leaving the [async with semaphore] block releases the semaphore. *)
Definition release (σ : State) : State :=
  mkState (tasks σ) (semaphore σ + 1) (results σ) (success_set σ)
          (console σ).

(** The head of the [for] loop of [test_key]: the next attempt starts its
    request; when no attempt is left [test_key] returns [None], on which
    [r["_elapsed"] = ...] in [worker] raises and leaves the block. *)
Definition next_attempt (i : nat) (attempts : list nat) (backoff : float)
    (σ : State) : State :=
  match attempts with
  | attempt :: rest => set_task i (Posting attempt rest backoff) σ
  | [] => release (set_task i Raised σ)
  end.

(** The rest of [worker] once [test_key] has returned [r]; it has no
    [await], so it runs in one piece. *)
Definition worker_finish (i total : nat) (k : string) (r : Result)
    (σ : State) : State :=
  mkState (<[i := Finished]> (tasks σ))
          (semaphore σ + 1)
          (results σ ++ [r])
          (if decide (status r = valid) then {[k]} ∪ success_set σ
           else success_set σ)
          (console σ ++
             [mkProgressLine (S i) total (slice_to 6 k) (status r)
                             (http_status r)]).

(** One step of the run. [Acquire i]: task [i] gets the semaphore, which
    needs a positive counter, and runs [test_key] up to its first request.
    [Receive i o]: the request of task [i] ends in [o]. [Wake i]: the sleep
    of task [i] is over. [None] when the action is not possible. *)
Definition fire (keys : list string) (act : Action) (σ : State)
    : option State :=
  match act with
  | Acquire i =>
      match tasks σ !! i with
      | Some Waiting =>
          if 0 <? semaphore σ then
            Some (next_attempt i (seq 1 MAX_RETRIES) INITIAL_BACKOFF
                    (mkState (tasks σ) (semaphore σ - 1) (results σ)
                             (success_set σ) (console σ)))
          else None
      | _ => None
      end
  | Receive i o =>
      match tasks σ !! i, keys !! i with
      | Some (Posting attempt rest backoff), Some k =>
          match attempt_body k attempt backoff o with
          | Return r => Some (worker_finish i (length keys) k r σ)
          | Continue delay backoff' =>
              Some (set_task i (Sleeping delay rest backoff') σ)
          end
      | _, _ => None
      end
  | Wake i =>
      match tasks σ !! i with
      | Some (Sleeping _ rest backoff) => Some (next_attempt i rest backoff σ)
      | _ => None
      end
  end.

Fixpoint run (keys : list string) (acts : list Action) (σ : State)
    : option State :=
  match acts with
  | [] => Some σ
  | act :: acts => σ' ← fire keys act σ; run keys acts σ'
  end.

(** ** main_async, up to the creation of the tasks *)

Inductive Launch :=
| EmptyInput
| ValueError
| Launched (keys : list string) (σ : State).

(** With no key [main_async] prints a message and returns.
    [asyncio.Semaphore] raises [ValueError] on a negative value. Otherwise
    one task per key is created. *)
Definition main_async_launch (lines : list string) (concurrency : Z)
    : Launch :=
  let keys := read_keys lines in
  let total := length keys in
  if decide (total = 0%nat) then EmptyInput
  else if concurrency <? 0 then ValueError
  else Launched keys
         (mkState (replicate total Waiting) concurrency [] ∅ []).

Definition is_finished (t : Task) : bool :=
  match t with Finished => true | _ => false end.

(** The task holds the semaphore. *)
Definition holds (t : Task) : nat :=
  match t with Posting _ _ _ | Sleeping _ _ _ => 1 | _ => 0 end.

(** The task has a request under way. *)
Definition posting (t : Task) : nat :=
  match t with Posting _ _ _ => 1 | _ => 0 end.

Definition holders (σ : State) : nat := sum_list_with holds (tasks σ).
Definition in_flight (σ : State) : nat := sum_list_with posting (tasks σ).

(** A state some run of [main_async] on this input goes through. *)
Definition reachable (lines : list string) (concurrency : Z) (σ : State)
    : Prop :=
  ∃ keys σ0 acts,
    main_async_launch lines concurrency = Launched keys σ0 ∧
    run keys acts σ0 = Some σ.

(** [asyncio.gather] has returned: every task is done and none raised. *)
Definition gathered (lines : list string) (concurrency : Z) (σ : State)
    : Prop :=
  reachable lines concurrency σ ∧ forallb is_finished (tasks σ) = true.

(** The results a run that returns normally has made: none when there is no
    key, those of the state after [gather] otherwise. *)
Inductive main_async_returns (lines : list string) (concurrency : Z)
    : list Result → Prop :=
| returns_no_keys :
    read_keys lines = [] → main_async_returns lines concurrency []
| returns_gathered σ :
    gathered lines concurrency σ →
    main_async_returns lines concurrency (results σ).

(** ** The report *)

Definition LF : string := String "010"%char EmptyString.

(** The order of Python on [str]. *)
Definition str_le (s1 s2 : string) : Prop := String.leb s1 s2 = true.

Global Instance str_le_dec : RelDecision str_le.
Proof. intros s1 s2. unfold str_le. apply _. Defined.

(** [sorted(success_set)]: the sort is applied to the elements in the order
    the set yields them. *)
Definition sorted (iteration : list string) : list string :=
  merge_sort str_le iteration.

(** A possible iteration order of a set. *)
Definition iteration_of (X : gset string) (l : list string) : Prop :=
  NoDup l ∧ ∀ k, k ∈ l ↔ k ∈ X.

(** The content of a file opened with mode w after one [f.write(k + LF)] per
    element. *)
Definition written (ks : list string) : string :=
  foldl (λ content k, content +:+ (k +:+ LF)) EmptyString ks.

(** The write step of the success file on a file system that maps paths to
    contents: nothing happens when the set is empty. *)
Definition write_success (success_file : string) (X : gset string)
    (fs : gmap string string) : gmap string string :=
  if decide (X = ∅) then fs
  else <[success_file := written (sorted (elements X))]> fs.

(** The counts of the closing line. *)
Record Summary := mkSummary {
  n_total : Z;
  n_valid : Z;
  n_invalid : Z;
  n_model_not_found : Z;
  n_error : Z
}.

(** [sum(1 for r in results if r["status"] == s)] *)
Definition count_status (s : Status) (rs : list Result) : Z :=
  Z.of_nat (length (filter (λ r, status r = s) rs)).

Definition summary (keys : list string) (σ : State) : Summary :=
  let total := Z.of_nat (length keys) in
  let valid := Z.of_nat (size (success_set σ)) in
  let invalid := count_status invalid (results σ) in
  let model_not_found := count_status model_not_found (results σ) in
  let error := total - valid - invalid - model_not_found in
  mkSummary total valid invalid model_not_found error.

(** ** The invariant of a run *)

(** The loop state of a task that holds the semaphore: the attempts left
    are those after the current one, and a sleeping task has one left. No
    task has raised. *)
Definition task_ok (t : Task) : Prop :=
  match t with
  | Posting a rest _ => rest = seq (S a) (MAX_RETRIES - a)
  | Sleeping _ rest _ =>
      ∃ a, (a < MAX_RETRIES)%nat ∧ rest = seq (S a) (MAX_RETRIES - a)
  | Raised => False
  | Waiting | Finished => True
  end.

Record inv (keys : list string) (concurrency : Z) (σ : State) : Prop := {
  inv_length : length (tasks σ) = length keys;
  inv_tasks : Forall task_ok (tasks σ);
  inv_sem : semaphore σ + Z.of_nat (holders σ) = concurrency;
  inv_sem_nonneg : 0 ≤ semaphore σ;
  inv_idx_NoDup : NoDup (p_idx <$> console σ);
  inv_idx : ∀ n, n ∈ (p_idx <$> console σ) ↔
                 ∃ i, n = S i ∧ tasks σ !! i = Some Finished;
  inv_results :
    Forall2 (λ p r, ∃ i, p_idx p = S i ∧ keys !! i = Some (key r))
            (console σ) (results σ);
  inv_success : ∀ k, k ∈ success_set σ ↔
                     ∃ r, r ∈ results σ ∧ key r = k ∧ status r = valid
}.

(** ** The tasks run test_key *)

(** [a'] comes before all the attempts that are left. *)
Definition before (attempts : list nat) (a' : nat) : Prop :=
  ∀ x, x ∈ attempts → (a' < x)%nat.

(** The loop state of a task is a state [test_key] goes through: on every
    network whose earlier outcomes all led to a retry, [test_key] returns
    what its loop returns from this state on. *)
Definition task_probe (k : string) (t : Task) : Prop :=
  match t with
  | Posting a rest b =>
      ∀ net, (∀ a', before (a :: rest) a' → retryable (net a')) →
             (test_key k net).2 = (test_key_loop k net (a :: rest) b).2
  | Sleeping _ rest b =>
      ∀ net, (∀ a', before rest a' → retryable (net a')) →
             (test_key k net).2 = (test_key_loop k net rest b).2
  | Waiting | Finished | Raised => True
  end.

Record probe_inv (keys : list string) (σ : State) : Prop := {
  probe_tasks : ∀ i k t,
    keys !! i = Some k → tasks σ !! i = Some t → task_probe k t;
  probe_results :
    Forall (λ r, ∃ net, (test_key (key r) net).2 = Some r) (results σ)
}.

(** ** Measures of a run *)

Definition unfinished (t : Task) : nat := if is_finished t then 0 else 1.

(** The tasks that are not done. *)
Definition pending (σ : State) : nat := sum_list_with unfinished (tasks σ).



(** The progress line [worker] prints for a result: [idx] counts the keys
    from 1, and the key is shown by its first six characters. *)
Definition line_matches (keys : list string) (p : ProgressLine) (r : Result)
    : Prop :=
  p_total p = length keys ∧
  (1 ≤ p_idx p ≤ length keys)%nat ∧
  keys !! Nat.pred (p_idx p) = Some (key r) ∧
  p_key p = slice_to 6 (key r) ∧
  p_status p = status r ∧
  p_http_status p = http_status r.

(** The string is made of white space only. *)
Fixpoint all_space (s : string) : bool :=
  match s with
  | EmptyString => true
  | String c s' => is_space c && all_space s'
  end.

(** ** Reading a text file *)

Definition LF_char : ascii := "010"%char.
Definition CR_char : ascii := "013"%char.

(** What a file opened for reading in text mode with the default [newline]
    does to its content: a carriage return followed by a line feed, and a
    carriage return alone, become a line feed. *)
Fixpoint universal_newlines (s : string) : string :=
  match s with
  | EmptyString => EmptyString
  | String c s' =>
      if Ascii.eqb c CR_char then
        match s' with
        | EmptyString => String LF_char EmptyString
        | String d s'' =>
            if Ascii.eqb d LF_char then String LF_char (universal_newlines s'')
            else String LF_char (universal_newlines s')
        end
      else String c (universal_newlines s')
  end.

(** The lines [for line in f] yields: each ends after a line feed, which it
    keeps; the last one may lack it. *)
Fixpoint file_lines (s : string) : list string :=
  match s with
  | EmptyString => []
  | String c s' =>
      if Ascii.eqb c LF_char then String c EmptyString :: file_lines s'
      else match file_lines s' with
           | [] => [String c EmptyString]
           | line :: rest => String c line :: rest
           end
  end.

(** The lines of the file with the given content, as line 87 reads them. *)
Definition read_file (content : string) : list string :=
  file_lines (universal_newlines content).

(** The string holds no line feed and no carriage return. *)
Fixpoint no_newline (s : string) : bool :=
  match s with
  | EmptyString => true
  | String c s' =>
      negb (Ascii.eqb c LF_char) && negb (Ascii.eqb c CR_char) &&
      no_newline s'
  end.

(** The string holds no carriage return. *)
Fixpoint no_cr (s : string) : bool :=
  match s with
  | EmptyString => true
  | String c s' => negb (Ascii.eqb c CR_char) && no_cr s'
  end.

(** A line as a text file yields it: no line break inside, and at most a
    line feed at its end. *)
Definition line_ok (line : string) : Prop :=
  ∃ body, no_newline body = true ∧ (line = body ∨ line = body +:+ LF).

(** What the detail of a result holds, by the outcome of the iteration
    that returned it. *)
Definition detail_rule (o : Outcome) (r : Result) : Prop :=
  match o with
  | Response code text =>
      if decide (200 ≤ code < 300) then detail r = "OK"
      else detail r = slice_to 500 text ∧
           String.length (detail r) = Nat.min 500 (String.length text)
  | TimeoutError => detail r = "Timeout"
  | ClientError e =>
      detail r = "ClientError: " +:+ slice_to 300 e ∧
      String.length (detail r) = (13 + Nat.min 300 (String.length e))%nat
  | OtherException e =>
      detail r = "Unexpected: " +:+ slice_to 300 e ∧
      String.length (detail r) = (12 + Nat.min 300 (String.length e))%nat
  end.

(** [c * n] for a one-character string [c] *)
Fixpoint str_mul (c : ascii) (n : nat) : string :=
  match n with
  | O => EmptyString
  | S n => String c (str_mul c n)
  end.

(** ** Properties of the classifier *)

Lemma slice_to_length n s :
  String.length (slice_to n s) = Nat.min n (String.length s).
Proof.
  unfold slice_to. revert s.
  induction n as [|n IH]; intros [|c s]; simpl; auto.
Qed.

Lemma string_length_app s t :
  String.length (s +:+ t) = (String.length s + String.length t)%nat.
Proof. induction s as [|c s IH]; simpl; [done|]. by rewrite IH. Qed.

Lemma prefix_app s t : String.prefix s (s +:+ t) = true.
Proof.
  induction s as [|c s IH]; simpl; [by destruct t|].
  by destruct (Ascii.ascii_dec c c).
Qed.

(** C1: every completed response lands in exactly one category: a status
    in [200,300) gives valid with the literal detail OK whatever the body
    is, 401 and 403 give invalid, 404 gives model_not_found, and every
    other status that is not a retryable 429 gives error; the three last
    carry the body cut to 500 characters. *)
Theorem classifier_policy (k : string) (attempt : nat) (backoff : float)
    (code : Z) (text : string) :
  let it := attempt_body k attempt backoff (Response code text) in
  (200 ≤ code < 300 →
     it = Return (mkResult k valid code "OK")) ∧
  (code = 401 ∨ code = 403 →
     it = Return (mkResult k invalid code (slice_to 500 text))) ∧
  (code = 404 →
     it = Return (mkResult k model_not_found code (slice_to 500 text))) ∧
  (¬ 200 ≤ code < 300 → code ≠ 401 → code ≠ 403 → code ≠ 404 →
   ¬ (code = 429 ∧ (attempt < MAX_RETRIES)%nat) →
     it = Return (mkResult k error code (slice_to 500 text))).
Proof.
  cbn zeta. unfold attempt_body.
  repeat split.
  - intros [Hlo Hhi].
    apply Z.leb_le in Hlo. apply Z.ltb_lt in Hhi. by rewrite Hlo, Hhi.
  - intros [-> | ->]; reflexivity.
  - intros ->; reflexivity.
  - intros Hr H401 H403 H404 H429.
    destruct (200 <=? code) eqn:Hlo, (code <? 300) eqn:Hhi; simpl;
      try (exfalso; apply Hr; split; [by apply Z.leb_le | by apply Z.ltb_lt]).
    all: apply Z.eqb_neq in H401, H403, H404; rewrite H401, H403, H404; simpl.
    all: destruct (code =? 429) eqn:E429; simpl; try reflexivity.
    all: destruct (attempt <? MAX_RETRIES)%nat eqn:Elt; try reflexivity.
    all: exfalso; apply H429; split;
      [by apply Z.eqb_eq | by apply Nat.ltb_lt].
Qed.

(** ** Properties of one iteration *)

(** An iteration continues exactly on a retryable outcome with attempts
    left; it then sleeps for the current backoff and multiplies it. *)
Lemma attempt_body_Continue k a b o d b' :
  attempt_body k a b o = Continue d b' →
  d = b ∧ b' = (b * BACKOFF_FACTOR)%float ∧
  retryable o ∧ (a < MAX_RETRIES)%nat.
Proof.
  unfold attempt_body. destruct o as [code text| |e|e]; simpl.
  - destruct ((200 <=? code) && (code <? 300)); [discriminate|].
    destruct ((code =? 401) || (code =? 403)); [discriminate|].
    destruct (code =? 404); [discriminate|].
    destruct (code =? 429) eqn:E; simpl; [|discriminate].
    destruct (a <? MAX_RETRIES)%nat eqn:Ha; [|discriminate].
    intros [= <- <-]. apply Z.eqb_eq in E. apply Nat.ltb_lt in Ha. done.
  - destruct (a <? MAX_RETRIES)%nat eqn:Ha; [|discriminate].
    intros [= <- <-]. apply Nat.ltb_lt in Ha. done.
  - destruct (a <? MAX_RETRIES)%nat eqn:Ha; [|discriminate].
    intros [= <- <-]. apply Nat.ltb_lt in Ha. done.
  - discriminate.
Qed.

Lemma attempt_body_retry k a b o :
  retryable o → (a < MAX_RETRIES)%nat →
  attempt_body k a b o = Continue b (b * BACKOFF_FACTOR)%float.
Proof.
  intros Ho Ha. apply Nat.ltb_lt in Ha.
  destruct o as [code text| |e|e]; simpl in *; try by rewrite Ha.
  - subst code. simpl. by rewrite Ha.
  - done.
Qed.

Lemma attempt_body_Return k a b o r :
  attempt_body k a b o = Return r →
  ¬ (retryable o ∧ (a < MAX_RETRIES)%nat).
Proof.
  intros Hr [Ho Ha]. by rewrite (attempt_body_retry k a b o Ho Ha) in Hr.
Qed.

(** The result of an iteration that returns depends neither on the backoff
    nor, when the outcome is not retryable, on the attempt counter. *)
Lemma attempt_body_final k o :
  ¬ retryable o →
  ∃ r, ∀ a' b', attempt_body k a' b' o = Return r.
Proof.
  intros Ho. destruct o as [code text| |e|e]; simpl in Ho; try done.
  - unfold attempt_body.
    destruct ((200 <=? code) && (code <? 300)); [by eexists|].
    destruct ((code =? 401) || (code =? 403)); [by eexists|].
    destruct (code =? 404); [by eexists|].
    apply Z.eqb_neq in Ho. rewrite Ho. simpl. by eexists.
  - by eexists.
Qed.

(** ** Properties of the probe *)

(** The three ways a probe can go. *)
Lemma test_key_cases k net :
  (∃ r, attempt_body k 1 1%float (net 1%nat) = Return r ∧
        test_key k net = ([Post 1], Some r)) ∨
  (retryable (net 1%nat) ∧
   ∃ r, attempt_body k 2 2%float (net 2%nat) = Return r ∧
        test_key k net = ([Post 1; Sleep 1; Post 2], Some r)) ∨
  (retryable (net 1%nat) ∧ retryable (net 2%nat) ∧
   ∃ r, attempt_body k 3 4%float (net 3%nat) = Return r ∧
        test_key k net =
          ([Post 1; Sleep 1; Post 2; Sleep 2; Post 3], Some r)).
Proof.
  unfold test_key. change (seq 1 MAX_RETRIES) with [1; 2; 3]%nat.
  change INITIAL_BACKOFF with 1%float. cbn [test_key_loop].
  destruct (attempt_body k 1 1 (net 1%nat)) as [r1|d1 b1] eqn:E1.
  { left. by exists r1. }
  apply attempt_body_Continue in E1 as (-> & -> & Ho1 & _).
  change (1 * BACKOFF_FACTOR)%float with 2%float.
  destruct (attempt_body k 2 2 (net 2%nat)) as [r2|d2 b2] eqn:E2.
  { right; left. split; [done|]. by exists r2. }
  apply attempt_body_Continue in E2 as (-> & -> & Ho2 & _).
  change (2 * BACKOFF_FACTOR)%float with 4%float.
  destruct (attempt_body k 3 4 (net 3%nat)) as [r3|d3 b3] eqn:E3.
  { right; right. repeat split; [done..|]. by exists r3. }
  apply attempt_body_Continue in E3 as (_ & _ & _ & Hlt).
  unfold MAX_RETRIES in Hlt. lia.
Qed.

(** A probe always returns a result: the loop never runs out. *)
Lemma test_key_total k net : ∃ r, (test_key k net).2 = Some r.
Proof.
  destruct (test_key_cases k net)
    as [(r & _ & ->) | [(_ & r & _ & ->) | (_ & _ & r & _ & ->)]];
    by exists r.
Qed.

(** C2: a probe makes at most MAX_RETRIES = 3 requests; a request is
    followed by another one exactly when its outcome is a 429, a timeout or
    a client error and the counter is below MAX_RETRIES; the sleeps are 1.0
    before the second request and 2.0 before the third, each being the
    previous backoff times BACKOFF_FACTOR; the trace ends with a request,
    never with a sleep; and an outcome that is not retryable ends the probe
    at once with the result of that iteration. *)
Theorem retry_schedule (k : string) (net : nat → Outcome) :
  let tr := (test_key k net).1 in
  let res := (test_key k net).2 in
  (tr = [Post 1] ∨
   tr = [Post 1; Sleep INITIAL_BACKOFF; Post 2] ∨
   tr = [Post 1; Sleep INITIAL_BACKOFF; Post 2;
         Sleep (INITIAL_BACKOFF * BACKOFF_FACTOR)%float; Post 3]) ∧
  INITIAL_BACKOFF = 1%float ∧
  (INITIAL_BACKOFF * BACKOFF_FACTOR)%float = 2%float ∧
  (length (posts tr) ≤ MAX_RETRIES)%nat ∧
  (∀ a, a ∈ posts tr →
     (S a ∈ posts tr ↔ retryable (net a) ∧ (a < MAX_RETRIES)%nat)) ∧
  (∀ a, a ∈ posts tr → ¬ retryable (net a) →
     last tr = Some (Post a) ∧
     ∃ r, res = Some r ∧ ∀ a' b, attempt_body k a' b (net a) = Return r) ∧
  (∀ a b o,
     (∃ d b', attempt_body k a b o = Continue d b') ↔
     retryable o ∧ (a < MAX_RETRIES)%nat) ∧
  (∀ a b o d b', attempt_body k a b o = Continue d b' →
     d = b ∧ b' = (b * BACKOFF_FACTOR)%float).
Proof.
  cbn zeta.
  change (INITIAL_BACKOFF * BACKOFF_FACTOR)%float with 2%float.
  change INITIAL_BACKOFF with 1%float.
  assert (Hfin : ∀ a b r, attempt_body k a b (net a) = Return r →
            ¬ retryable (net a) →
            ∃ r', Some r = Some r' ∧
                  ∀ a' b', attempt_body k a' b' (net a) = Return r').
  { intros a b r Hr Ho. destruct (attempt_body_final k _ Ho) as [r' Hr'].
    exists r'. split; [|done]. rewrite Hr' in Hr. congruence. }
  assert (Hiff : ∀ a b o,
            (∃ d b', attempt_body k a b o = Continue d b') ↔
            retryable o ∧ (a < MAX_RETRIES)%nat).
  { intros a b o. split.
    - intros (d & b' & H). by apply attempt_body_Continue in H as (_ & _ & ? & ?).
    - intros [Ho Ha]. eexists _, _. by apply attempt_body_retry. }
  assert (Hmul : ∀ a b o d b', attempt_body k a b o = Continue d b' →
            d = b ∧ b' = (b * BACKOFF_FACTOR)%float).
  { intros a b o d b' H. by apply attempt_body_Continue in H as (? & ? & _). }
  destruct (test_key_cases k net)
    as [(r & Hr & ->) | [(Ho1 & r & Hr & ->) | (Ho1 & Ho2 & r & Hr & ->)]];
    cbn [fst snd posts omap list_omap length last].
  - split_and!; try done; auto.
    + unfold MAX_RETRIES; lia.
    + intros a ->%list_elem_of_singleton. split.
      * intros ?%list_elem_of_singleton. lia.
      * intros H. by apply attempt_body_Return in Hr.
    + intros a ->%list_elem_of_singleton Ho. split; [done|]. eauto.
  - split_and!; try done; auto.
    + unfold MAX_RETRIES; lia.
    + intros a Ha. set_unfold in Ha. destruct Ha as [-> | [-> | []]].
      * split; [|intros _; repeat constructor]. intros _. split; [done|]. unfold MAX_RETRIES; lia.
      * split; [intros H; set_unfold in H; lia|].
        intros H. by apply attempt_body_Return in Hr.
    + intros a Ha Ho. set_unfold in Ha. destruct Ha as [-> | [-> | []]]; [done|].
      split; [done|]. eauto.
  - split_and!; try done; auto.
    + intros a Ha. set_unfold in Ha. destruct Ha as [-> | [-> | [-> | []]]].
      * split; [|intros _; repeat constructor]. intros _. split; [done|]. unfold MAX_RETRIES; lia.
      * split; [|intros _; repeat constructor]. intros _. split; [done|]. unfold MAX_RETRIES; lia.
      * split; [intros H; set_unfold in H; lia|].
        intros H. by apply attempt_body_Return in Hr.
    + intros a Ha Ho. set_unfold in Ha. destruct Ha as [-> | [-> | [-> | []]]]; [done..|].
      split; [done|]. eauto.
Qed.

(** C4: when every request is answered with a 429, the probe makes the
    three requests with two retries in between, sleeping 1.0 and then 2.0,
    and ends in error with http_status 429 and the body of the last
    response, cut to 500 characters, as detail. *)
Theorem always_429_exhausts (k : string) (net : nat → Outcome) :
  (∀ a, ∃ body, net a = Response 429 body) →
  ∃ body,
    net MAX_RETRIES = Response 429 body ∧
    test_key k net =
      ([Post 1; Sleep 1; Post 2; Sleep 2; Post 3],
       Some (mkResult k error 429 (slice_to 500 body))) ∧
    length (sleeps (test_key k net).1) = (MAX_RETRIES - 1)%nat ∧
    length (posts (test_key k net).1) = MAX_RETRIES.
Proof.
  intros Hnet.
  destruct (Hnet 1%nat) as [t1 H1], (Hnet 2%nat) as [t2 H2],
    (Hnet 3%nat) as [t3 H3].
  exists t3. split; [exact H3|].
  assert (Hrun : test_key k net =
    ([Post 1; Sleep 1; Post 2; Sleep 2; Post 3],
     Some (mkResult k error 429 (slice_to 500 t3)))).
  { unfold test_key. change (seq 1 MAX_RETRIES) with [1; 2; 3]%nat.
    cbn [test_key_loop]. rewrite H1, H2, H3. reflexivity. }
  rewrite Hrun. done.
Qed.

Lemma always_429_exhausts_witness :
  ∃ body,
    Response 429 "RESOURCE_EXHAUSTED" = Response 429 body ∧
    test_key "AIzaSy-1" (λ _, Response 429 "RESOURCE_EXHAUSTED") =
      ([Post 1; Sleep 1; Post 2; Sleep 2; Post 3],
       Some (mkResult "AIzaSy-1" error 429 (slice_to 500 body))) ∧
    length (sleeps
      (test_key "AIzaSy-1" (λ _, Response 429 "RESOURCE_EXHAUSTED")).1)
      = (MAX_RETRIES - 1)%nat ∧
    length (posts
      (test_key "AIzaSy-1" (λ _, Response 429 "RESOURCE_EXHAUSTED")).1)
      = MAX_RETRIES.
Proof.
  apply (always_429_exhausts "AIzaSy-1" (λ _, Response 429 "RESOURCE_EXHAUSTED")).
  intros a. exists "RESOURCE_EXHAUSTED". reflexivity.
Defined.

(** C5: when every request times out, the probe uses up its three
    attempts and ends in error with the literal detail Timeout and the
    http_status -1 that stands for no response. *)
Theorem always_timeout_exhausts (k : string) (net : nat → Outcome) :
  (∀ a, net a = TimeoutError) →
  test_key k net =
    ([Post 1; Sleep 1; Post 2; Sleep 2; Post 3],
     Some (mkResult k error (-1) "Timeout")) ∧
  length (posts (test_key k net).1) = MAX_RETRIES.
Proof.
  intros Hnet.
  assert (Hrun : test_key k net =
    ([Post 1; Sleep 1; Post 2; Sleep 2; Post 3],
     Some (mkResult k error (-1) "Timeout"))).
  { unfold test_key. change (seq 1 MAX_RETRIES) with [1; 2; 3]%nat.
    cbn [test_key_loop]. rewrite !Hnet. reflexivity. }
  rewrite Hrun. done.
Qed.

Lemma always_timeout_exhausts_witness :
  test_key "AIzaSy-1" (λ _, TimeoutError) =
    ([Post 1; Sleep 1; Post 2; Sleep 2; Post 3],
     Some (mkResult "AIzaSy-1" error (-1) "Timeout")) ∧
  length (posts (test_key "AIzaSy-1" (λ _, TimeoutError)).1) = MAX_RETRIES.
Proof.
  apply (always_timeout_exhausts "AIzaSy-1" (λ _, TimeoutError)).
  intros a. reflexivity.
Defined.

(** C8: an exception that is neither a timeout nor a client error ends the
    probe on the spot, whatever the attempt counter, the attempts left and
    the backoff are: no sleep, no further request, and a result in error
    with http_status -2 whose detail starts with Unexpected: . *)
Theorem unexpected_exception_returns (k : string) (net : nat → Outcome)
    (attempt : nat) (rest : list nat) (backoff : float) (e : string) :
  net attempt = OtherException e →
  let r := mkResult k error (-2) ("Unexpected: " +:+ slice_to 300 e) in
  attempt_body k attempt backoff (net attempt) = Return r ∧
  test_key_loop k net (attempt :: rest) backoff = ([Post attempt], Some r) ∧
  sleeps (test_key_loop k net (attempt :: rest) backoff).1 = [] ∧
  String.prefix "Unexpected: " (detail r) = true.
Proof.
  intros Hnet. cbn zeta. cbn [test_key_loop]. rewrite Hnet.
  split_and!; try reflexivity. apply prefix_app.
Qed.

Lemma unexpected_exception_returns_witness :
  let net := λ a : nat,
    if (a =? 2)%nat then OtherException "codec can't decode byte"
    else TimeoutError in
  let r := mkResult "AIzaSy-1" error (-2)
             ("Unexpected: " +:+ slice_to 300 "codec can't decode byte") in
  attempt_body "AIzaSy-1" 2 2 (net 2%nat) = Return r ∧
  test_key_loop "AIzaSy-1" net [2; 3]%nat 2 = ([Post 2], Some r) ∧
  sleeps (test_key_loop "AIzaSy-1" net [2; 3]%nat 2).1 = [] ∧
  String.prefix "Unexpected: " (detail r) = true.
Proof.
  apply (unexpected_exception_returns "AIzaSy-1"
           (λ a : nat, if (a =? 2)%nat
                       then OtherException "codec can't decode byte"
                       else TimeoutError)
           2 [3%nat] 2 "codec can't decode byte").
  reflexivity.
Defined.

(** ** Truncation of the detail *)

Lemma attempt_body_detail k a b o r :
  attempt_body k a b o = Return r →
  detail_rule o r ∧ (String.length (detail r) ≤ 500)%nat.
Proof.
  unfold attempt_body, detail_rule.
  destruct o as [code text| |e|e].
  - destruct (200 <=? code) eqn:Hlo, (code <? 300) eqn:Hhi; simpl.
    { intros [= <-]. simpl. rewrite decide_True; [by split; [|lia]|].
      split; [by apply Z.leb_le | by apply Z.ltb_lt]. }
    all: rewrite decide_False
      by (intros [? ?]; (apply Z.leb_nle in Hlo || apply Z.ltb_nlt in Hhi); lia).
    all: destruct ((code =? 401) || (code =? 403));
      [|destruct (code =? 404);
        [|destruct ((code =? 429) && (a <? MAX_RETRIES)%nat); [done|]]].
    all: intros [= <-]; simpl; rewrite slice_to_length; split; [done|lia].
  - destruct (a <? MAX_RETRIES)%nat; [done|].
    intros [= <-]. simpl. split; [done|lia].
  - destruct (a <? MAX_RETRIES)%nat; [done|].
    intros [= <-]. cbn [detail].
    rewrite string_length_app, slice_to_length.
    change (String.length "ClientError: ") with 13%nat. split; [done|lia].
  - intros [= <-]. cbn [detail].
    rewrite string_length_app, slice_to_length.
    change (String.length "Unexpected: ") with 12%nat. split; [done|lia].
Qed.

(** C6, as the code has it: the result of a probe comes from its last
    request. A response body is stored cut to 500 characters (so a longer
    one to exactly 500), except that a status in [200,300) stores the
    literal OK; the text of an exception is cut to 300 characters and put
    behind ClientError: or Unexpected: ; a timeout stores the literal
    Timeout. No detail is longer than 500 characters. *)
Theorem detail_truncation (k : string) (net : nat → Outcome) :
  ∃ a r,
    last (test_key k net).1 = Some (Post a) ∧
    (test_key k net).2 = Some r ∧
    detail_rule (net a) r ∧
    (String.length (detail r) ≤ 500)%nat.
Proof.
  destruct (test_key_cases k net)
    as [(r & Hr & ->) | [(_ & r & Hr & ->) | (_ & _ & r & Hr & ->)]];
    apply attempt_body_detail in Hr as [? ?]; eexists _, r; done.
Qed.

(** C6 fails as stated: an exception text of 501 characters is stored as a
    detail of 312 characters, its first 300 behind a prefix, not as its
    first 500. *)
Lemma exception_text_not_cut_to_500 :
  let e := str_mul "x"%char 501 in
  ∃ r,
    (test_key "AIzaSy-1" (λ _, OtherException e)).2 = Some r ∧
    (500 < String.length e)%nat ∧
    String.length (detail r) = 312%nat ∧
    String.length (detail r) ≠ 500%nat ∧
    detail r ≠ slice_to 500 e.
Proof.
  cbn zeta. eexists. split; [reflexivity|].
  split; [vm_compute; lia|].
  split; [vm_compute; reflexivity|].
  split; [vm_compute; lia|].
  vm_compute. discriminate.
Qed.

(** ** Invariance *)

Lemma sum_list_with_insert {A} (f : A → nat) (l : list A) i x y :
  l !! i = Some x →
  (sum_list_with f (<[i:=y]> l) + f x = sum_list_with f l + f y)%nat.
Proof.
  revert i. induction l as [|z l IH]; intros [|i] Hi; simplify_eq/=.
  - lia.
  - specialize (IH _ Hi). lia.
Qed.

Lemma insert_unfinished (l : list Task) i x y j :
  l !! i = Some x → is_finished x = false → is_finished y = false →
  <[i:=y]> l !! j = Some Finished ↔ l !! j = Some Finished.
Proof.
  intros Hi Hx Hy. destruct (decide (i = j)) as [->|Hne].
  - rewrite list_lookup_insert_eq by eauto using lookup_lt_Some.
    rewrite Hi. split; intros [= ->]; done.
  - by rewrite list_lookup_insert_ne.
Qed.

Lemma attempt_body_key k a b o r :
  attempt_body k a b o = Return r → key r = k.
Proof.
  unfold attempt_body. destruct o as [code text| |e|e].
  - repeat case_match; intros [= <-]; done.
  - case_match; intros [= <-]; done.
  - case_match; intros [= <-]; done.
  - intros [= <-]; done.
Qed.

(** Moving a task that is not done to a state in which it is not done
    either keeps the invariant, when the counter of the semaphore follows
    the change of holder. *)
Lemma retask_inv keys c σ i t t' sem' :
  inv keys c σ →
  tasks σ !! i = Some t →
  is_finished t = false → is_finished t' = false →
  task_ok t' →
  sem' + Z.of_nat (holds t') = semaphore σ + Z.of_nat (holds t) →
  0 ≤ sem' →
  inv keys c (mkState (<[i:=t']> (tasks σ)) sem' (results σ)
                      (success_set σ) (console σ)).
Proof.
  intros [Hlen Hok Hsem Hnn Hnd Hidx Hres Hsuc] Hi Ht Ht' Hok' Hh Hnn'.
  split; simpl; try done.
  - by rewrite length_insert.
  - by apply Forall_insert.
  - unfold holders in *. simpl.
    pose proof (sum_list_with_insert holds _ _ _ t' Hi). lia.
  - intros n. rewrite Hidx. by setoid_rewrite (insert_unfinished _ i t t').
Qed.

(** The invariant when [worker] completes with a result. *)
Lemma worker_finish_inv keys c σ i k a rest b r :
  inv keys c σ →
  tasks σ !! i = Some (Posting a rest b) →
  keys !! i = Some k → key r = k →
  inv keys c (worker_finish i (length keys) k r σ).
Proof.
  intros [Hlen Hok Hsem Hnn Hnd Hidx Hres Hsuc] Hi Hk Hr.
  split; simpl.
  - by rewrite length_insert.
  - by apply Forall_insert.
  - unfold holders in *. simpl.
    pose proof (sum_list_with_insert holds _ _ _ Finished Hi).
    simpl in *. lia.
  - lia.
  - rewrite fmap_app. simpl. apply NoDup_app. split_and!; [done| |].
    + intros n Hn ->%list_elem_of_singleton.
      apply Hidx in Hn as (j & [= <-] & Hj). congruence.
    + apply NoDup_singleton.
  - intros n. rewrite fmap_app, elem_of_app, Hidx. simpl.
    rewrite list_elem_of_singleton. split.
    + intros [(j & -> & Hj) | ->].
      * exists j. split; [done|].
        destruct (decide (i = j)) as [->|Hne]; [congruence|].
        by rewrite list_lookup_insert_ne.
      * exists i. split; [done|].
        apply list_lookup_insert_eq. eauto using lookup_lt_Some.
    + intros (j & -> & Hj). destruct (decide (i = j)) as [->|Hne]; [by right|].
      left. exists j. split; [done|]. by rewrite list_lookup_insert_ne in Hj.
  - apply Forall2_app; [done|]. repeat constructor. simpl.
    exists i. by rewrite Hr.
  - intros k'. setoid_rewrite elem_of_app.
    setoid_rewrite list_elem_of_singleton.
    destruct (decide (status r = valid)) as [Hv|Hv].
    + rewrite elem_of_union, elem_of_singleton, Hsuc. split.
      * intros [-> | (r' & ? & ? & ?)]; [exists r|exists r']; eauto.
      * intros (r' & [?| ->] & ? & ?); [right; eauto|left; congruence].
    + rewrite Hsuc. split.
      * intros (r' & ? & ? & ?). exists r'; eauto.
      * intros (r' & [?| ->] & ? & ?); [eauto|done].
Qed.

Lemma fire_inv keys c act σ σ' :
  inv keys c σ → fire keys act σ = Some σ' → inv keys c σ'.
Proof.
  intros Hinv Hfire. destruct act as [i|i o|i]; simpl in Hfire.
  - destruct (tasks σ !! i) as [[]|] eqn:Hi; try done.
    destruct (0 <? semaphore σ) eqn:Hpos; [|done].
    apply Z.ltb_lt in Hpos. injection Hfire as <-.
    change (seq 1 MAX_RETRIES) with (1 :: seq 2 (MAX_RETRIES - 1))%nat.
    cbn [next_attempt]. unfold set_task. simpl.
    apply (retask_inv keys c σ i Waiting); try done; simpl; lia.
  - destruct (tasks σ !! i) as [[|a rest b| | |]|] eqn:Hi; try done.
    destruct (keys !! i) as [k|] eqn:Hk; [|done].
    destruct (attempt_body k a b o) as [r|d b'] eqn:Hbody;
      injection Hfire as <-.
    + apply attempt_body_key in Hbody.
      by eapply worker_finish_inv.
    + apply attempt_body_Continue in Hbody as (_ & _ & _ & Ha).
      pose proof (inv_tasks _ _ _ Hinv) as Hok.
      eapply Forall_lookup_1 in Hok; [|exact Hi]. simpl in Hok.
      unfold set_task.
      apply (retask_inv keys c σ i (Posting a rest b)); try done.
      * simpl. eauto.
      * apply (inv_sem_nonneg _ _ _ Hinv).
  - destruct (tasks σ !! i) as [[| |d rest b| |]|] eqn:Hi; try done.
    injection Hfire as <-.
    pose proof (inv_tasks _ _ _ Hinv) as Hok.
    eapply Forall_lookup_1 in Hok; [|exact Hi].
    destruct Hok as (a & Ha & ->).
    replace (MAX_RETRIES - a)%nat with (S (MAX_RETRIES - S a)) by lia.
    cbn [seq next_attempt]. unfold set_task.
    apply (retask_inv keys c σ i (Sleeping d (seq (S a) (S (MAX_RETRIES - S a))) b));
      try done.
    + replace (MAX_RETRIES - a)%nat with (S (MAX_RETRIES - S a)) in Hi by lia.
      done.
    + apply (inv_sem_nonneg _ _ _ Hinv).
Qed.

Lemma run_inv keys c acts σ σ' :
  inv keys c σ → run keys acts σ = Some σ' → inv keys c σ'.
Proof.
  revert σ. induction acts as [|act acts IH]; intros σ Hinv Hrun; simpl in *.
  - by injection Hrun as <-.
  - destruct (fire keys act σ) as [σ1|] eqn:Hfire; [|done].
    simpl in Hrun. eauto using fire_inv.
Qed.

Lemma launch_inv lines c keys σ0 :
  main_async_launch lines c = Launched keys σ0 →
  keys = read_keys lines ∧ keys ≠ [] ∧ 0 ≤ c ∧ inv keys c σ0.
Proof.
  unfold main_async_launch. case_decide as Hn; [done|].
  destruct (c <? 0) eqn:Hc; [done|]. apply Z.ltb_ge in Hc.
  intros [= <- <-]. split_and!; try done.
  { by intros Hnil; rewrite Hnil in Hn. }
  set (n := length (read_keys lines)).
  assert (Hlook : ∀ i t, replicate n Waiting !! i = Some t → t = Waiting).
  { intros i t [-> _]%lookup_replicate. done. }
  split; simpl.
  - by rewrite length_replicate.
  - apply Forall_lookup_2. intros i t ->%Hlook. done.
  - unfold holders. simpl.
    assert (sum_list_with holds (replicate n Waiting) = 0%nat) as ->; [|lia].
    clear. induction n; simpl; auto.
  - done.
  - constructor.
  - intros m. split.
    + intros []%elem_of_nil.
    + intros (i & _ & Hi%Hlook). done.
  - constructor.
  - intros k. split.
    + intros []%elem_of_empty.
    + intros (r & []%elem_of_nil & _).
Qed.

Lemma reachable_inv lines c σ :
  reachable lines c σ → inv (read_keys lines) c σ ∧ 0 ≤ c.
Proof.
  intros (keys & σ0 & acts & Hl & Hrun).
  apply launch_inv in Hl as (-> & _ & Hc & Hinv).
  eauto using run_inv.
Qed.

(** ** The concurrency ceiling *)

Lemma in_flight_le_holders σ : (in_flight σ ≤ holders σ)%nat.
Proof.
  unfold in_flight, holders.
  induction (tasks σ) as [|t l IH]; simpl; [done|].
  destruct t; simpl; lia.
Qed.

(** C9: in every state of every run with concurrency [c], at most [c]
    tasks have a request under way; the same holds of the tasks inside the
    block guarded by the semaphore. *)
Theorem concurrency_ceiling (lines : list string) (c : Z) (σ : State) :
  reachable lines c σ →
  Z.of_nat (in_flight σ) ≤ c ∧ Z.of_nat (holders σ) ≤ c.
Proof.
  intros [Hinv _]%reachable_inv.
  pose proof (inv_sem _ _ _ Hinv). pose proof (inv_sem_nonneg _ _ _ Hinv).
  pose proof (in_flight_le_holders σ). lia.
Qed.

Lemma concurrency_ceiling_witness :
  let σ := mkState [Posting 1 [2; 3]%nat 1; Posting 1 [2; 3]%nat 1; Waiting]
                   0 [] ∅ [] in
  reachable ["k1"; "k2"; "k3"] 2 σ ∧
  in_flight σ = 2%nat ∧
  fire ["k1"; "k2"; "k3"] (Acquire 2) σ = None ∧
  Z.of_nat (in_flight σ) ≤ 2 ∧ Z.of_nat (holders σ) ≤ 2.
Proof.
  cbn zeta.
  assert (Hreach : reachable ["k1"; "k2"; "k3"] 2
            (mkState [Posting 1 [2; 3]%nat 1; Posting 1 [2; 3]%nat 1; Waiting]
                     0 [] ∅ [])).
  { exists ["k1"; "k2"; "k3"], (mkState (replicate 3 Waiting) 2 [] ∅ []),
      [Acquire 0; Acquire 1].
    split; vm_compute; reflexivity. }
  split; [exact Hreach|].
  split; [reflexivity|].
  split; [reflexivity|].
  exact (concurrency_ceiling _ _ _ Hreach).
Defined.

(** ** One result per key *)

Lemma lookup_default_seq (keys : list string) :
  keys = (λ i, default EmptyString (keys !! i)) <$> seq 0 (length keys).
Proof.
  apply list_eq. intros i. rewrite list_lookup_fmap.
  destruct (decide (i < length keys)%nat) as [Hlt|Hge].
  - rewrite lookup_seq_lt by done. simpl.
    destruct (lookup_lt_is_Some_2 keys i Hlt) as [x Hx]. by rewrite Hx.
  - rewrite lookup_seq_ge by lia. simpl. apply lookup_ge_None. lia.
Qed.

Lemma gathered_all_finished keys c σ i :
  inv keys c σ → forallb is_finished (tasks σ) = true →
  (i < length keys)%nat → tasks σ !! i = Some Finished.
Proof.
  intros Hinv Hall Hi. rewrite <- (inv_length _ _ _ Hinv) in Hi.
  destruct (lookup_lt_is_Some_2 _ _ Hi) as [t Ht]. rewrite Ht. f_equal.
  rewrite forallb_forall in Hall.
  specialize (Hall t). rewrite <- list_elem_of_In in Hall.
  specialize (Hall (list_elem_of_lookup_2 _ _ _ Ht)). by destruct t.
Qed.

(** After [gather] the indices printed are those of all the tasks, each
    once, and the results follow them. *)
Lemma gathered_order keys c σ :
  inv keys c σ → forallb is_finished (tasks σ) = true →
  ∃ order,
    order ≡ₚ seq 0 (length keys) ∧
    Forall2 (λ i r, keys !! i = Some (key r)) order (results σ).
Proof.
  intros Hinv Hall. exists (Nat.pred <$> (p_idx <$> console σ)). split.
  - assert (Hperm : p_idx <$> console σ ≡ₚ S <$> seq 0 (length keys)).
    { apply NoDup_Permutation.
      - apply (inv_idx_NoDup _ _ _ Hinv).
      - apply NoDup_fmap; [apply _|apply NoDup_seq].
      - intros n. rewrite (inv_idx _ _ _ Hinv), list_elem_of_fmap. split.
        + intros (i & -> & Hi). exists i. split; [done|].
          apply elem_of_seq. apply lookup_lt_Some in Hi.
          rewrite (inv_length _ _ _ Hinv) in Hi. lia.
        + intros (i & -> & Hi%elem_of_seq). exists i. split; [done|].
          eapply gathered_all_finished; eauto. lia. }
    rewrite Hperm.
    assert (Hpred : ∀ l : list nat, Nat.pred <$> (S <$> l) = l).
    { induction l as [|x l IH]; csimpl; [done|]. by f_equal. }
    by rewrite Hpred.
  - rewrite <- list_fmap_compose. apply Forall2_fmap_l.
    eapply Forall2_impl; [apply (inv_results _ _ _ Hinv)|].
    intros p r (i & Hp & Hk). simpl. by rewrite Hp.
Qed.

Lemma one_result_per_key_gathered lines c σ :
  gathered lines c σ →
  length (results σ) = length (read_keys lines) ∧
  key <$> results σ ≡ₚ read_keys lines.
Proof.
  intros [[Hinv _]%reachable_inv Hall].
  destruct (gathered_order _ _ _ Hinv Hall) as (order & Hperm & Hall2).
  assert (Hkeys : key <$> results σ =
            (λ i, default EmptyString (read_keys lines !! i)) <$> order).
  { clear -Hall2. induction Hall2 as [|i r order rs Hi _ IH]; [done|].
    csimpl. rewrite Hi. simpl. by f_equal. }
  split.
  - apply Forall2_length in Hall2. rewrite <- Hall2.
    apply Permutation_length in Hperm. by rewrite Hperm, length_seq.
  - rewrite Hkeys, Hperm. by rewrite <- lookup_default_seq.
Qed.

(** C3: a run that returns normally has made exactly one result per key:
    as many results as the input has lines that are not blank once
    stripped, and the results can be put in one-to-one correspondence with
    the lines, each result carrying the key of its line; the keys of the
    results are the keys of the input up to order. *)
Theorem one_result_per_key (lines : list string) (c : Z) (rs : list Result) :
  main_async_returns lines c rs →
  let keys := read_keys lines in
  length rs = length keys ∧
  key <$> rs ≡ₚ keys ∧
  ∃ order,
    order ≡ₚ seq 0 (length keys) ∧
    Forall2 (λ i r, keys !! i = Some (key r)) order rs.
Proof.
  intros Hret. cbn zeta. destruct Hret as [Hnil | σ [Hreach Hall]].
  { rewrite Hnil. split_and!; [done..|]. exists []. by split. }
  destruct (one_result_per_key_gathered lines c σ (conj Hreach Hall))
    as [Hlen Hkeys].
  apply reachable_inv in Hreach as [Hinv _].
  destruct (gathered_order _ _ _ Hinv Hall) as (order & Hperm & Hall2).
  split_and!; [done..|]. by exists order.
Qed.

Lemma one_result_per_key_witness :
  let lines := ["k1" +:+ LF; LF; " k2 " +:+ LF] in
  let rs := [mkResult "k1" valid 200 "OK";
             mkResult "k2" invalid 401 "denied"] in
  main_async_returns lines 1 rs ∧
  length rs = length (read_keys lines) ∧
  key <$> rs ≡ₚ read_keys lines ∧
  ∃ order,
    order ≡ₚ seq 0 (length (read_keys lines)) ∧
    Forall2 (λ i r, read_keys lines !! i = Some (key r)) order rs.
Proof.
  cbn zeta.
  assert (Hret : main_async_returns ["k1" +:+ LF; LF; " k2 " +:+ LF] 1
            [mkResult "k1" valid 200 "OK"; mkResult "k2" invalid 401 "denied"]).
  { apply (returns_gathered _ _
      (mkState [Finished; Finished] 1
         [mkResult "k1" valid 200 "OK"; mkResult "k2" invalid 401 "denied"]
         {["k1"]}
         [mkProgressLine 1 2 "k1" valid 200;
          mkProgressLine 2 2 "k2" invalid 401])).
    split; [|reflexivity].
    exists ["k1"; "k2"], (mkState (replicate 2 Waiting) 1 [] ∅ []),
      [Acquire 0; Receive 0 (Response 200 "{}"); Acquire 1;
       Receive 1 TimeoutError; Wake 1; Receive 1 (Response 401 "denied")].
    split; vm_compute; reflexivity. }
  split; [exact Hret|]. exact (one_result_per_key _ _ _ Hret).
Defined.

(** ** The order on strings *)

Lemma string_compare_cons a s b t :
  String.compare (String a s) (String b t) =
  match Ascii.compare a b with
  | Eq => String.compare s t
  | c => c
  end.
Proof. simpl. by destruct (Ascii.compare a b). Qed.

Lemma str_le_cons a s b t :
  str_le (String a s) (String b t) ↔
  (N_of_ascii a < N_of_ascii b)%N ∨ (a = b ∧ str_le s t).
Proof.
  unfold str_le, String.leb. rewrite string_compare_cons.
  unfold Ascii.compare.
  destruct (N.compare_spec (N_of_ascii a) (N_of_ascii b)) as [He|Hl|Hg].
  - assert (a = b) as ->.
    { by rewrite <- (ascii_N_embedding a), <- (ascii_N_embedding b), He. }
    split; [by right|]. intros [?|[_ ?]]; [lia|done].
  - split; [by left|done].
  - split; [done|]. intros [?|[-> _]]; lia.
Qed.

Global Instance str_le_total : Total str_le.
Proof. intros s1 s2. apply String.leb_total. Qed.

Global Instance str_le_antisym : AntiSymm eq str_le.
Proof. intros s1 s2. apply String.leb_antisym. Qed.

Global Instance str_le_trans : Transitive str_le.
Proof.
  intros s1. induction s1 as [|a s IH]; intros [|b t] [|c u] H12 H23;
    try done.
  apply str_le_cons in H12, H23. apply str_le_cons.
  destruct H12 as [H12|[-> H12]], H23 as [H23|[-> H23]].
  - left; lia.
  - by left.
  - by left.
  - right. split; [done|]. by eapply IH.
Qed.

(** ** The success file *)

Lemma sorted_Sorted l : Sorted str_le (sorted l).
Proof. apply (Sorted_merge_sort str_le). Qed.

Lemma sorted_Permutation l : sorted l ≡ₚ l.
Proof. apply (merge_sort_Permutation str_le). Qed.

(** The sorted list does not depend on the order in which the set yields
    its elements. *)
Lemma sorted_iteration (X : gset string) l :
  iteration_of X l → sorted l = sorted (elements X).
Proof.
  intros [Hnd Hin].
  apply (Sorted_unique str_le); try apply sorted_Sorted.
  rewrite !sorted_Permutation.
  apply NoDup_Permutation; [done|apply NoDup_elements|].
  intros k. by rewrite Hin, elem_of_elements.
Qed.

Lemma write_success_idemp path (X : gset string) (fs : gmap string string) :
  write_success path X (write_success path X fs) = write_success path X fs.
Proof.
  unfold write_success. case_decide; [done|]. apply insert_insert_eq.
Qed.

(** C7: in every state of a run the success set holds exactly the keys of
    the results with status valid. The write step leaves the file system
    alone when the set is empty; otherwise the success file holds one line
    per element of the set, in the order of the strings, whatever order the
    set yields its elements in; writing a second time changes nothing. *)
Theorem success_file_of_valid_keys (lines : list string) (c : Z) (σ : State)
    (success_file : string) (fs : gmap string string) :
  reachable lines c σ →
  let X := success_set σ in
  (∀ k, k ∈ X ↔ ∃ r, r ∈ results σ ∧ key r = k ∧ status r = valid) ∧
  (X = ∅ → write_success success_file X fs = fs) ∧
  (X ≠ ∅ →
     write_success success_file X fs !! success_file =
       Some (foldl (λ content k, content +:+ (k +:+ LF)) EmptyString
                   (sorted (elements X))) ∧
     ∀ p, p ≠ success_file →
          write_success success_file X fs !! p = fs !! p) ∧
  Sorted str_le (sorted (elements X)) ∧
  NoDup (sorted (elements X)) ∧
  (∀ k, k ∈ sorted (elements X) ↔ k ∈ X) ∧
  (∀ l, iteration_of X l → sorted l = sorted (elements X)) ∧
  write_success success_file X (write_success success_file X fs) =
    write_success success_file X fs.
Proof.
  intros [Hinv _]%reachable_inv. cbn zeta. split_and!.
  - apply (inv_success _ _ _ Hinv).
  - intros HX. unfold write_success. by rewrite decide_True.
  - intros HX. unfold write_success. rewrite decide_False by done. split.
    + by rewrite lookup_insert_eq.
    + intros p Hp. by rewrite lookup_insert_ne.
  - apply sorted_Sorted.
  - rewrite sorted_Permutation. apply NoDup_elements.
  - intros k. by rewrite sorted_Permutation, elem_of_elements.
  - apply sorted_iteration.
  - apply write_success_idemp.
Qed.

Lemma success_file_of_valid_keys_witness :
  let lines := ["kb" +:+ LF; "ka" +:+ LF; "kc" +:+ LF] in
  let σ := mkState [Finished; Finished; Finished] 2
             [mkResult "kb" valid 200 "OK"; mkResult "kc" invalid 403 "no";
              mkResult "ka" valid 204 "OK"]
             {["ka"; "kb"]}
             [mkProgressLine 1 3 "kb" valid 200;
              mkProgressLine 3 3 "kc" invalid 403;
              mkProgressLine 2 3 "ka" valid 204] in
  reachable lines 2 σ ∧
  write_success "success.txt" (success_set σ) ∅ =
    {["success.txt" := "ka" +:+ LF +:+ "kb" +:+ LF]} ∧
  write_success "success.txt" (success_set σ)
    (write_success "success.txt" (success_set σ) ∅) =
    write_success "success.txt" (success_set σ) ∅.
Proof.
  cbn zeta.
  assert (Hreach : reachable ["kb" +:+ LF; "ka" +:+ LF; "kc" +:+ LF] 2
    (mkState [Finished; Finished; Finished] 2
       [mkResult "kb" valid 200 "OK"; mkResult "kc" invalid 403 "no";
        mkResult "ka" valid 204 "OK"]
       {["ka"; "kb"]}
       [mkProgressLine 1 3 "kb" valid 200;
        mkProgressLine 3 3 "kc" invalid 403;
        mkProgressLine 2 3 "ka" valid 204])).
  { exists ["kb"; "ka"; "kc"], (mkState (replicate 3 Waiting) 2 [] ∅ []),
      [Acquire 0; Acquire 2; Receive 0 (Response 200 "{}");
       Receive 2 (Response 403 "no"); Acquire 1; Receive 1 (Response 204 "")].
    split; vm_compute; reflexivity. }
  split; [exact Hreach|].
  split; [vm_compute; reflexivity|].
  exact (proj2 (proj2 (proj2 (proj2 (proj2 (proj2 (proj2
    (success_file_of_valid_keys _ _ _ "success.txt" ∅ Hreach)))))))).
Defined.

(** ** The summary *)

Lemma count_status_total rs :
  Z.of_nat (length rs) =
  count_status valid rs + count_status invalid rs +
  count_status model_not_found rs + count_status error rs.
Proof.
  unfold count_status. induction rs as [|r rs IH]; [done|].
  rewrite !filter_cons. cbn [length].
  destruct (status r); repeat case_decide; try done; cbn [length]; lia.
Qed.

Lemma size_list_to_set_le (l : list string) :
  (size (list_to_set l : gset string) ≤ length l)%nat.
Proof.
  induction l as [|x l IH]; cbn [list_to_set length].
  - rewrite size_empty. lia.
  - rewrite size_union_alt, size_singleton.
    assert (size (list_to_set l ∖ {[x]} : gset string) ≤
            size (list_to_set l : gset string))%nat.
    { apply subseteq_size. intros z [? _]%elem_of_difference. done. }
    lia.
Qed.

(** A list in which some element occurs twice makes a set smaller than
    itself. *)
Lemma size_list_to_set_lt (l : list string) k :
  (2 ≤ length (filter (λ x, x = k) l))%nat →
  (size (list_to_set l : gset string) < length l)%nat.
Proof.
  induction l as [|x l IH]; [simpl; lia|].
  rewrite filter_cons. cbn [list_to_set].
  case_decide as Hx; cbn [length]; intros Hk.
  - subst x.
    assert (k ∈ l) as Hin.
    { destruct (filter (λ x, x = k) l) as [|y ?] eqn:Hf; simpl in Hk; [lia|].
      assert (y ∈ filter (λ x, x = k) l) as Hy by (rewrite Hf; left).
      apply list_elem_of_filter in Hy as [-> ?]. done. }
    assert (({[k]} ∪ list_to_set l : gset string) = list_to_set l) as ->.
    { apply set_eq. intros z. rewrite elem_of_union, elem_of_singleton,
        elem_of_list_to_set. split; [intros [->|?]; done|by right]. }
    pose proof (size_list_to_set_le l). lia.
  - specialize (IH Hk).
    rewrite size_union_alt, size_singleton.
    assert (size (list_to_set l ∖ {[x]} : gset string) ≤
            size (list_to_set l : gset string))%nat.
    { apply subseteq_size. intros z [? _]%elem_of_difference. done. }
    lia.
Qed.

(** The keys of the valid results among those equal to [k], when every
    result for [k] is valid. *)
Lemma filter_valid_keys (rs : list Result) (k : string) :
  (∀ r, r ∈ rs → key r = k → status r = valid) →
  filter (λ x, x = k) (key <$> filter (λ r, status r = valid) rs) =
  filter (λ x, x = k) (key <$> rs).
Proof.
  induction rs as [|r rs IH]; intros Hall; [done|].
  rewrite filter_cons. csimpl. rewrite (filter_cons _ (key r)).
  assert (IH' := IH (λ r' Hr', Hall r' (list_elem_of_further _ _ _ Hr'))).
  clear IH.
  case_decide as Hv.
  - csimpl. rewrite filter_cons. by rewrite IH'.
  - case_decide as Hk; [|done].
    exfalso. apply Hv, Hall; [left|done].
Qed.

Lemma success_set_list keys c σ :
  inv keys c σ →
  success_set σ =
  list_to_set (key <$> filter (λ r, status r = valid) (results σ)).
Proof.
  intros Hinv. apply set_eq. intros k.
  rewrite (inv_success _ _ _ Hinv), elem_of_list_to_set, list_elem_of_fmap.
  split.
  - intros (r & Hr & <- & Hv). exists r. split; [done|].
    by apply list_elem_of_filter.
  - intros (r & -> & [Hv Hr]%list_elem_of_filter). eauto.
Qed.

(** C10: the valid count of the summary is the size of the success set and
    the error count is the total minus the three other counts. The valid
    count never exceeds the number of valid results, and the error count
    exceeds the number of error results by the difference. So when a key
    stands on two lines or more and each of its results is valid, the valid
    count is below the number of valid results and the error count is above
    the number of error results. *)
Theorem summary_counts (lines : list string) (c : Z) (σ : State) :
  gathered lines c σ →
  let keys := read_keys lines in
  let s := summary keys σ in
  let valid_results := count_status valid (results σ) in
  let error_results := count_status error (results σ) in
  n_total s = Z.of_nat (length keys) ∧
  n_valid s = Z.of_nat (size (success_set σ)) ∧
  n_invalid s = count_status invalid (results σ) ∧
  n_model_not_found s = count_status model_not_found (results σ) ∧
  n_error s = n_total s - n_valid s - n_invalid s - n_model_not_found s ∧
  n_valid s ≤ valid_results ∧
  n_error s = error_results + (valid_results - n_valid s) ∧
  ∀ k, (2 ≤ length (filter (λ x, x = k) keys))%nat →
       (∀ r, r ∈ results σ → key r = k → status r = valid) →
       n_valid s < valid_results ∧ error_results < n_error s.
Proof.
  intros Hg. cbn zeta.
  destruct (one_result_per_key_gathered lines c σ Hg) as (Hlen & Hperm).
  destruct Hg as [[Hinv _]%reachable_inv _].
  pose proof (count_status_total (results σ)) as Htot.
  pose proof (success_set_list _ _ _ Hinv) as HX.
  pose proof (size_list_to_set_le
    (key <$> filter (λ r, status r = valid) (results σ))) as Hle.
  rewrite <- HX, length_fmap in Hle.
  unfold summary. cbn [n_total n_valid n_invalid n_model_not_found n_error].
  rewrite <- Hlen.
  assert (Hcv : count_status valid (results σ) =
    Z.of_nat (length (filter (λ r, status r = valid) (results σ)))) by done.
  split_and!; try done; try lia.
  intros k Hk Hall.
  assert (size (success_set σ) <
          length (filter (λ r, status r = valid) (results σ)))%nat; [|lia].
  rewrite HX, <- (length_fmap key). apply (size_list_to_set_lt _ k).
  rewrite filter_valid_keys by done.
  by rewrite (filter_Permutation _ _ _ Hperm).
Qed.

Lemma summary_counts_witness :
  let lines := ["dup" +:+ LF; "dup" +:+ LF] in
  let σ := mkState [Finished; Finished] 2
             [mkResult "dup" valid 200 "OK"; mkResult "dup" valid 200 "OK"]
             {["dup"]}
             [mkProgressLine 1 2 "dup" valid 200;
              mkProgressLine 2 2 "dup" valid 200] in
  gathered lines 2 σ ∧
  summary (read_keys lines) σ = mkSummary 2 1 0 0 1 ∧
  count_status valid (results σ) = 2 ∧
  count_status error (results σ) = 0 ∧
  n_valid (summary (read_keys lines) σ) < count_status valid (results σ) ∧
  count_status error (results σ) < n_error (summary (read_keys lines) σ).
Proof.
  cbn zeta.
  assert (Hg : gathered ["dup" +:+ LF; "dup" +:+ LF] 2
    (mkState [Finished; Finished] 2
       [mkResult "dup" valid 200 "OK"; mkResult "dup" valid 200 "OK"]
       {["dup"]}
       [mkProgressLine 1 2 "dup" valid 200;
        mkProgressLine 2 2 "dup" valid 200])).
  { split; [|reflexivity].
    exists ["dup"; "dup"], (mkState (replicate 2 Waiting) 2 [] ∅ []),
      [Acquire 0; Acquire 1; Receive 0 (Response 200 "{}");
       Receive 1 (Response 200 "{}")].
    split; vm_compute; reflexivity. }
  split; [exact Hg|].
  split; [vm_compute; reflexivity|].
  split; [vm_compute; reflexivity|].
  split; [vm_compute; reflexivity|].
  apply (proj2 (proj2 (proj2 (proj2 (proj2 (proj2 (proj2
    (summary_counts _ _ _ Hg))))))) "dup").
  - vm_compute. lia.
  - intros r Hr _. set_unfold in Hr. by destruct Hr as [-> | [-> | []]].
Defined.

(** ** Every result is the result of a probe *)

Lemma probe_inv_retask keys σ σ' i t' :
  probe_inv keys σ →
  tasks σ' = <[i:=t']> (tasks σ) →
  results σ' = results σ →
  (∀ k, keys !! i = Some k → task_probe k t') →
  probe_inv keys σ'.
Proof.
  intros [Htasks Hres] Ht Hr Hnew. split; [|by rewrite Hr].
  intros j k t Hk. rewrite Ht. destruct (decide (i = j)) as [->|Hne].
  - intros Hj. apply list_lookup_insert_Some in Hj as [(_ & <- & _)|[? _]];
      [auto|done].
  - rewrite list_lookup_insert_ne by done. eauto.
Qed.

Lemma test_key_loop_retry k net a rest b :
  retryable (net a) → (a < MAX_RETRIES)%nat →
  (test_key_loop k net (a :: rest) b).2 =
  (test_key_loop k net rest (b * BACKOFF_FACTOR)%float).2.
Proof.
  intros Ho Ha. cbn [test_key_loop].
  rewrite (attempt_body_retry k a b (net a) Ho Ha).
  by destruct (test_key_loop k net rest (b * BACKOFF_FACTOR)%float).
Qed.

Lemma fire_probe_inv keys c act σ σ' :
  inv keys c σ → probe_inv keys σ → fire keys act σ = Some σ' →
  probe_inv keys σ'.
Proof.
  intros Hinv Hp Hfire. destruct act as [i|i o|i]; simpl in Hfire.
  - destruct (tasks σ !! i) as [[]|] eqn:Hi; try done.
    destruct (0 <? semaphore σ); [|done]. injection Hfire as <-.
    change (seq 1 MAX_RETRIES) with (1 :: seq 2 (MAX_RETRIES - 1))%nat.
    cbn [next_attempt].
    eapply probe_inv_retask; [exact Hp|reflexivity|reflexivity|].
    intros k _ net _. reflexivity.
  - destruct (tasks σ !! i) as [[|a rest b| | |]|] eqn:Hi; try done.
    destruct (keys !! i) as [k|] eqn:Hk; [|done].
    pose proof (probe_tasks _ _ Hp i k _ Hk Hi) as Hsim. simpl in Hsim.
    destruct (attempt_body k a b o) as [r|d b'] eqn:Hbody;
      injection Hfire as <-.
    + destruct Hp as [Htasks Hres]. split; simpl.
      * intros j k' t Hk' Hj.
        destruct (decide (i = j)) as [->|Hne].
        -- apply list_lookup_insert_Some in Hj as [(_ & <- & _)|[? _]]; done.
        -- rewrite list_lookup_insert_ne in Hj by done. eauto.
      * apply Forall_app. split; [done|]. constructor; [|done].
        rewrite (attempt_body_key _ _ _ _ _ Hbody).
        exists (λ a', if decide (a' < a)%nat then TimeoutError else o).
        rewrite Hsim.
        -- cbn [test_key_loop]. rewrite decide_False by lia.
           by rewrite Hbody.
        -- intros a' Ha'. rewrite decide_True; [done|]. apply Ha'. left.
    + apply attempt_body_Continue in Hbody as (_ & -> & _ & Ha).
      pose proof (inv_tasks _ _ _ Hinv) as Hok.
      eapply Forall_lookup_1 in Hok; [|exact Hi]. simpl in Hok.
      eapply probe_inv_retask; [exact Hp|reflexivity|reflexivity|].
      intros k' Hk'. assert (k' = k) as -> by congruence.
      intros net Hnet. rewrite Hsim.
      * apply test_key_loop_retry; [|done]. apply Hnet.
        intros x Hx. rewrite Hok in Hx. apply elem_of_seq in Hx. lia.
      * intros a' Ha'. apply Hnet. intros x Hx. apply Ha'. by right.
  - destruct (tasks σ !! i) as [[| |d rest b| |]|] eqn:Hi; try done.
    injection Hfire as <-.
    pose proof (inv_tasks _ _ _ Hinv) as Hok.
    eapply Forall_lookup_1 in Hok; [|exact Hi].
    destruct Hok as (a & Ha & Hrest).
    replace (MAX_RETRIES - a)%nat with (S (MAX_RETRIES - S a)) in Hrest by lia.
    cbn [seq] in Hrest. subst rest. cbn [next_attempt].
    eapply probe_inv_retask; [exact Hp|reflexivity|reflexivity|].
    intros k Hk. exact (probe_tasks _ _ Hp i k _ Hk Hi).
Qed.

Lemma run_probe_inv keys c acts σ σ' :
  inv keys c σ → probe_inv keys σ → run keys acts σ = Some σ' →
  probe_inv keys σ'.
Proof.
  revert σ. induction acts as [|act acts IH]; intros σ Hinv Hp Hrun;
    simpl in *.
  - by injection Hrun as <-.
  - destruct (fire keys act σ) as [σ1|] eqn:Hfire; [|done].
    simpl in Hrun. eauto using fire_inv, fire_probe_inv.
Qed.

(** Whatever the interleaving, each result a run has stored is what
    [test_key] returns for its key on some network, and no task raises. *)
Lemma results_are_probes lines c σ :
  reachable lines c σ →
  (∀ r, r ∈ results σ → ∃ net, (test_key (key r) net).2 = Some r) ∧
  Raised ∉ tasks σ.
Proof.
  intros (keys & σ0 & acts & Hl & Hrun).
  apply launch_inv in Hl as Hl'. destruct Hl' as (-> & _ & _ & Hinv).
  assert (Hp0 : probe_inv (read_keys lines) σ0).
  { unfold main_async_launch in Hl. case_decide; [done|].
    destruct (c <? 0); [done|]. injection Hl as <-. split; simpl.
    - intros i k t _ [-> _]%lookup_replicate. done.
    - constructor. }
  split.
  - apply Forall_forall.
    exact (probe_results _ _ (run_probe_inv _ _ _ _ _ Hinv Hp0 Hrun)).
  - intros Hin. pose proof (inv_tasks _ _ _ (run_inv _ _ _ _ _ Hinv Hrun)) as Hok.
    rewrite Forall_forall in Hok. exact (Hok _ Hin).
Qed.

(** ** More on the probe *)

(** When every request fails with a client error, the probe makes the
    three requests, sleeps 1.0 and 2.0 in between, and returns error with
    http_status -1 and the text of the last exception, cut to 300
    characters, behind ClientError: . *)
Theorem always_client_error_exhausts (k : string) (net : nat → Outcome) :
  (∀ a, ∃ e, net a = ClientError e) →
  ∃ e,
    net MAX_RETRIES = ClientError e ∧
    test_key k net =
      ([Post 1; Sleep 1; Post 2; Sleep 2; Post 3],
       Some (mkResult k error (-1) ("ClientError: " +:+ slice_to 300 e))).
Proof.
  intros Hnet.
  destruct (Hnet 1%nat) as [e1 H1], (Hnet 2%nat) as [e2 H2],
    (Hnet 3%nat) as [e3 H3].
  exists e3. split; [exact H3|].
  unfold test_key. change (seq 1 MAX_RETRIES) with [1; 2; 3]%nat.
  cbn [test_key_loop]. rewrite H1, H2, H3. reflexivity.
Qed.

Lemma always_client_error_exhausts_witness :
  ∃ e,
    ClientError "Cannot connect to host" = ClientError e ∧
    test_key "AIzaSy-1" (λ _, ClientError "Cannot connect to host") =
      ([Post 1; Sleep 1; Post 2; Sleep 2; Post 3],
       Some (mkResult "AIzaSy-1" error (-1)
               ("ClientError: " +:+ slice_to 300 e))).
Proof.
  apply (always_client_error_exhausts "AIzaSy-1"
           (λ _, ClientError "Cannot connect to host")).
  intros a. exists "Cannot connect to host". reflexivity.
Defined.

Lemma attempt_body_status k a b o r :
  attempt_body k a b o = Return r →
  (status r = valid ↔ 200 ≤ http_status r < 300) ∧
  (status r = invalid ↔ http_status r = 401 ∨ http_status r = 403) ∧
  (status r = model_not_found ↔ http_status r = 404).
Proof.
  unfold attempt_body. destruct o as [code text| |e|e].
  - destruct (200 <=? code) eqn:Hlo, (code <? 300) eqn:Hhi; simpl.
    { apply Z.leb_le in Hlo. apply Z.ltb_lt in Hhi.
      intros [= <-]. simpl. split_and!; split; try done; lia. }
    all: destruct (code =? 401) eqn:H401; simpl;
      [apply Z.eqb_eq in H401|apply Z.eqb_neq in H401;
       destruct (code =? 403) eqn:H403; simpl;
       [apply Z.eqb_eq in H403|apply Z.eqb_neq in H403;
        destruct (code =? 404) eqn:H404; simpl;
        [apply Z.eqb_eq in H404|apply Z.eqb_neq in H404;
         destruct ((code =? 429) && (a <? MAX_RETRIES)%nat); [done|]]]].
    all: (apply Z.leb_nle in Hlo || apply Z.ltb_nlt in Hhi).
    all: intros [= <-]; simpl; split_and!; split; try done; lia.
  - destruct (a <? MAX_RETRIES)%nat; [done|].
    intros [= <-]; simpl; split_and!; split; try done; lia.
  - destruct (a <? MAX_RETRIES)%nat; [done|].
    intros [= <-]; simpl; split_and!; split; try done; lia.
  - intros [= <-]; simpl; split_and!; split; try done; lia.
Qed.

(** Whatever the network does, the result of a probe carries the probed
    key, and its status can be read off its http_status: valid exactly for
    a status in [200,300), invalid exactly for 401 and 403, model_not_found
    exactly for 404, and error for everything else, the values -1 and -2
    included. *)
Theorem status_follows_http_status (k : string) (net : nat → Outcome) :
  ∃ r,
    (test_key k net).2 = Some r ∧
    key r = k ∧
    (status r = valid ↔ 200 ≤ http_status r < 300) ∧
    (status r = invalid ↔ http_status r = 401 ∨ http_status r = 403) ∧
    (status r = model_not_found ↔ http_status r = 404) ∧
    (status r = error ↔
       ¬ 200 ≤ http_status r < 300 ∧ http_status r ≠ 401 ∧
       http_status r ≠ 403 ∧ http_status r ≠ 404).
Proof.
  assert (Hall : ∀ a b o r, attempt_body k a b o = Return r →
    key r = k ∧
    (status r = valid ↔ 200 ≤ http_status r < 300) ∧
    (status r = invalid ↔ http_status r = 401 ∨ http_status r = 403) ∧
    (status r = model_not_found ↔ http_status r = 404) ∧
    (status r = error ↔
       ¬ 200 ≤ http_status r < 300 ∧ http_status r ≠ 401 ∧
       http_status r ≠ 403 ∧ http_status r ≠ 404)).
  { intros a b o r Hr. split; [by eapply attempt_body_key|].
    apply attempt_body_status in Hr as ([Hv1 Hv2] & [Hi1 Hi2] & [Hm1 Hm2]).
    split_and!; [done..|].
    destruct (status r) eqn:Hs.
    - split; [done|]. intros (Hn & _). exfalso. by apply Hn, Hv1.
    - split; [done|]. intros (_ & H1 & H3 & _). destruct (Hi1 eq_refl); done.
    - split; [done|]. intros (_ & _ & _ & H4). exfalso. by apply H4, Hm1.
    - split; [intros _|done]. split_and!.
      + intros H. apply Hv2 in H. congruence.
      + intros H. pose proof (Hi2 (or_introl H)). congruence.
      + intros H. pose proof (Hi2 (or_intror H)). congruence.
      + intros H. apply Hm2 in H. congruence. }
  destruct (test_key_cases k net)
    as [(r & Hr & ->) | [(_ & r & Hr & ->) | (_ & _ & r & Hr & ->)]];
    exists r; (split; [done|]); eapply Hall; eauto.
Qed.

(** Retries leave no trace in the result: when the outcome of the last
    request is not a retryable one, the probe returns what it would have
    returned had that outcome come on the first request. *)
Theorem retries_leave_no_trace (k : string) (net : nat → Outcome) (a : nat) :
  last (test_key k net).1 = Some (Post a) →
  ¬ retryable (net a) →
  (test_key k net).2 = (test_key k (λ _, net a)).2 ∧
  (test_key k (λ _, net a)).1 = [Post 1].
Proof.
  intros Hlast Ho.
  destruct (attempt_body_final k _ Ho) as [r Hr].
  assert (Hone : test_key k (λ _, net a) = ([Post 1], Some r)).
  { unfold test_key. change (seq 1 MAX_RETRIES) with [1; 2; 3]%nat.
    cbn [test_key_loop]. by rewrite Hr. }
  rewrite Hone. split; [|done].
  destruct (test_key_cases k net)
    as [(r' & Hr' & Hrun) | [(_ & r' & Hr' & Hrun) | (_ & _ & r' & Hr' & Hrun)]];
    rewrite Hrun in Hlast |- *; injection Hlast as <-;
    rewrite Hr in Hr'; by injection Hr' as <-.
Qed.

Lemma retries_leave_no_trace_witness :
  let net := λ a : nat,
    match a with
    | 1%nat => TimeoutError
    | 2%nat => Response 429 "slow down"
    | _ => Response 200 "{}"
    end in
  last (test_key "AIzaSy-1" net).1 = Some (Post 3) ∧
  (test_key "AIzaSy-1" net).2 =
    Some (mkResult "AIzaSy-1" valid 200 "OK") ∧
  (test_key "AIzaSy-1" net).2 =
    (test_key "AIzaSy-1" (λ _, Response 200 "{}")).2.
Proof.
  cbn zeta. split; [reflexivity|]. split; [reflexivity|].
  apply (retries_leave_no_trace "AIzaSy-1"
    (λ a : nat,
       match a with
       | 1%nat => TimeoutError
       | 2%nat => Response 429 "slow down"
       | _ => Response 200 "{}"
       end) 3).
  - reflexivity.
  - simpl. lia.
Defined.

(** ** Steps of the dispatcher *)

(** The four kinds of step. *)
Lemma fire_cases keys act σ σ' :
  fire keys act σ = Some σ' →
  (∃ i, act = Acquire i ∧ tasks σ !! i = Some Waiting ∧ 0 < semaphore σ ∧
        σ' = mkState (<[i := Posting 1 (seq 2 (MAX_RETRIES - 1))
                                      INITIAL_BACKOFF]> (tasks σ))
                     (semaphore σ - 1) (results σ) (success_set σ)
                     (console σ)) ∨
  (∃ i o a rest b k r,
     act = Receive i o ∧ tasks σ !! i = Some (Posting a rest b) ∧
     keys !! i = Some k ∧ attempt_body k a b o = Return r ∧
     σ' = worker_finish i (length keys) k r σ) ∨
  (∃ i o a rest b k d b',
     act = Receive i o ∧ tasks σ !! i = Some (Posting a rest b) ∧
     keys !! i = Some k ∧ attempt_body k a b o = Continue d b' ∧
     σ' = set_task i (Sleeping d rest b') σ) ∨
  (∃ i d rest b,
     act = Wake i ∧ tasks σ !! i = Some (Sleeping d rest b) ∧
     σ' = next_attempt i rest b σ).
Proof.
  intros Hfire. destruct act as [i|i o|i]; simpl in Hfire.
  - destruct (tasks σ !! i) as [[]|] eqn:Hi; try done.
    destruct (0 <? semaphore σ) eqn:Hpos; [|done].
    apply Z.ltb_lt in Hpos. injection Hfire as <-. left. by exists i.
  - destruct (tasks σ !! i) as [[|a rest b| | |]|] eqn:Hi; try done.
    destruct (keys !! i) as [k|] eqn:Hk; [|done].
    destruct (attempt_body k a b o) as [r|d b'] eqn:Hbody;
      injection Hfire as <-.
    + right; left. by exists i, o, a, rest, b, k, r.
    + right; right; left. by exists i, o, a, rest, b, k, d, b'.
  - destruct (tasks σ !! i) as [[| |d rest b| |]|] eqn:Hi; try done.
    injection Hfire as <-. right; right; right. by exists i, d, rest, b.
Qed.

Lemma run_app keys acts1 acts2 σ :
  run keys (acts1 ++ acts2) σ = σ' ← run keys acts1 σ; run keys acts2 σ'.
Proof.
  revert σ. induction acts1 as [|act acts1 IH]; intros σ; simpl; [done|].
  destruct (fire keys act σ); simpl; [apply IH|done].
Qed.

Lemma insert_keeps_finished (l : list Task) i t t' j :
  l !! i = Some t → is_finished t = false →
  l !! j = Some Finished → <[i:=t']> l !! j = Some Finished.
Proof.
  intros Hi Ht Hj. destruct (decide (i = j)) as [->|Hne].
  - rewrite Hi in Hj. injection Hj as ->. done.
  - by rewrite list_lookup_insert_ne.
Qed.

Lemma fire_monotone keys act σ σ' :
  fire keys act σ = Some σ' →
  results σ `prefix_of` results σ' ∧
  console σ `prefix_of` console σ' ∧
  success_set σ ⊆ success_set σ' ∧
  (∀ j, tasks σ !! j = Some Finished → tasks σ' !! j = Some Finished).
Proof.
  intros [(i & -> & Hi & _ & ->)
         |[(i & o & a & rest & b & k & r & -> & Hi & _ & _ & ->)
         |[(i & o & a & rest & b & k & d & b' & -> & Hi & _ & _ & ->)
          |(i & d & rest & b & -> & Hi & ->)]]]%fire_cases.
  - simpl. split_and!; try done. intros j. by apply insert_keeps_finished with Waiting.
  - simpl. split_and!.
    + by apply prefix_app_r.
    + by apply prefix_app_r.
    + case_decide; [apply union_subseteq_r|done].
    + intros j. by apply insert_keeps_finished with (Posting a rest b).
  - simpl. split_and!; try done.
    intros j. by apply insert_keeps_finished with (Posting a rest b).
  - destruct rest as [|a rest]; simpl; (split_and!; try done);
      intros j; eapply insert_keeps_finished; eauto.
Qed.

Lemma run_results_prefix keys acts σ σ' :
  run keys acts σ = Some σ' → results σ `prefix_of` results σ'.
Proof.
  revert σ. induction acts as [|act acts IH]; intros σ Hrun; simpl in Hrun.
  - by injection Hrun as <-.
  - destruct (fire keys act σ) as [σ1|] eqn:Hfire; [|done]. simpl in Hrun.
    apply fire_monotone in Hfire as (Hr & _). etrans; eauto.
Qed.

(** The shared objects only grow: along a run, results and progress lines
    are added at the end and never removed or changed, no key leaves the
    success set, and a task that is done stays done. *)
Theorem run_monotone (keys : list string) (acts : list Action)
    (σ σ' : State) :
  run keys acts σ = Some σ' →
  results σ `prefix_of` results σ' ∧
  console σ `prefix_of` console σ' ∧
  success_set σ ⊆ success_set σ' ∧
  (∀ j, tasks σ !! j = Some Finished → tasks σ' !! j = Some Finished).
Proof.
  revert σ. induction acts as [|act acts IH]; intros σ Hrun; simpl in Hrun.
  - injection Hrun as <-. done.
  - destruct (fire keys act σ) as [σ1|] eqn:Hfire; [|done]. simpl in Hrun.
    apply fire_monotone in Hfire as (Hr & Hc & Hs & Hf).
    apply IH in Hrun as (Hr' & Hc' & Hs' & Hf').
    split_and!; [by etrans|by etrans|by etrans|auto].
Qed.

Lemma run_monotone_witness :
  let keys := ["k1"; "k2"] in
  let σ := mkState [Finished; Waiting] 1
             [mkResult "k1" valid 200 "OK"] {["k1"]}
             [mkProgressLine 1 2 "k1" valid 200] in
  let σ' := mkState [Finished; Finished] 1
              [mkResult "k1" valid 200 "OK";
               mkResult "k2" model_not_found 404 "no such model"]
              {["k1"]}
              [mkProgressLine 1 2 "k1" valid 200;
               mkProgressLine 2 2 "k2" model_not_found 404] in
  run keys [Acquire 1; Receive 1 (Response 404 "no such model")] σ = Some σ' ∧
  results σ `prefix_of` results σ' ∧
  console σ `prefix_of` console σ' ∧
  success_set σ ⊆ success_set σ' ∧
  (∀ j, tasks σ !! j = Some Finished → tasks σ' !! j = Some Finished).
Proof.
  cbn zeta.
  assert (Hrun : run ["k1"; "k2"]
    [Acquire 1; Receive 1 (Response 404 "no such model")]
    (mkState [Finished; Waiting] 1
       [mkResult "k1" valid 200 "OK"] {["k1"]}
       [mkProgressLine 1 2 "k1" valid 200]) =
    Some (mkState [Finished; Finished] 1
            [mkResult "k1" valid 200 "OK";
             mkResult "k2" model_not_found 404 "no such model"]
            {["k1"]}
            [mkProgressLine 1 2 "k1" valid 200;
             mkProgressLine 2 2 "k2" model_not_found 404])).
  { vm_compute. reflexivity. }
  split; [exact Hrun|]. exact (run_monotone _ _ _ _ Hrun).
Defined.

(** ** The number of requests *)





(** ** The progress lines *)

Lemma fire_lines keys act σ σ' :
  Forall2 (line_matches keys) (console σ) (results σ) →
  fire keys act σ = Some σ' →
  Forall2 (line_matches keys) (console σ') (results σ').
Proof.
  intros Hinv
    [(i & -> & Hi & _ & ->)
    |[(i & o & a & rest & b & k & r & -> & Hi & Hk & Hbody & ->)
    |[(i & o & a & rest & b & k & d & b' & -> & Hi & _ & _ & ->)
     |(i & d & rest & b & -> & Hi & ->)]]]%fire_cases; simpl; try done.
  - apply Forall2_app; [done|]. constructor; [|constructor].
    apply lookup_lt_Some in Hk as Hlt.
    unfold line_matches; simpl.
    rewrite (attempt_body_key _ _ _ _ _ Hbody).
    split_and!; try done; lia.
  - by destruct rest.
Qed.

(** In every state of a run the progress lines and the results go in
    pairs, in the same order: the line of a result shows the position of
    its key in the input counted from 1, the number of keys, the first six
    characters of the key, and the status and http_status of the result. *)
Theorem progress_lines_match_results (lines : list string) (c : Z)
    (σ : State) :
  reachable lines c σ →
  Forall2 (line_matches (read_keys lines)) (console σ) (results σ).
Proof.
  intros (keys & σ0 & acts & Hl & Hrun).
  pose proof Hl as Hl'. apply launch_inv in Hl' as (-> & _ & _ & _).
  assert (H0 : Forall2 (line_matches (read_keys lines))
                 (console σ0) (results σ0)).
  { unfold main_async_launch in Hl. case_decide; [done|].
    destruct (c <? 0); [done|]. injection Hl as <-. constructor. }
  clear Hl. revert σ0 H0 Hrun.
  induction acts as [|act acts IH]; intros σ0 H0 Hrun; simpl in Hrun.
  - by injection Hrun as <-.
  - destruct (fire (read_keys lines) act σ0) as [σ1|] eqn:Hfire; [|done].
    simpl in Hrun. eauto using fire_lines.
Qed.

Lemma progress_lines_match_results_witness :
  let lines := ["AIzaSyKEY-one" +:+ LF; "short" +:+ LF] in
  let σ := mkState [Posting 1 [2; 3]%nat 1; Finished] 1
             [mkResult "short" invalid 401 "bad key"] ∅
             [mkProgressLine 2 2 "short" invalid 401] in
  reachable lines 2 σ ∧
  Forall2 (line_matches (read_keys lines)) (console σ) (results σ).
Proof.
  cbn zeta.
  assert (Hreach : reachable ["AIzaSyKEY-one" +:+ LF; "short" +:+ LF] 2
    (mkState [Posting 1 [2; 3]%nat 1; Finished] 1
       [mkResult "short" invalid 401 "bad key"] ∅
       [mkProgressLine 2 2 "short" invalid 401])).
  { exists ["AIzaSyKEY-one"; "short"],
      (mkState (replicate 2 Waiting) 2 [] ∅ []),
      [Acquire 1; Acquire 0; Receive 1 (Response 401 "bad key")].
    split; vm_compute; reflexivity. }
  split; [exact Hreach|]. exact (progress_lines_match_results _ _ _ Hreach).
Defined.

(** ** The semaphore *)

Lemma finished_no_holders (l : list Task) :
  forallb is_finished l = true → sum_list_with holds l = 0%nat.
Proof.
  induction l as [|t l IH]; simpl; [done|].
  intros [Ht Hl]%andb_prop. rewrite (IH Hl). by destruct t.
Qed.

(** The semaphore is never over-released and never leaks: in every state
    of a run its counter is the concurrency minus the tasks inside the
    guarded block, so it stays between 0 and the concurrency, and once all
    tasks are done it is back at the concurrency. *)
Theorem semaphore_balance (lines : list string) (c : Z) (σ : State) :
  reachable lines c σ →
  semaphore σ = c - Z.of_nat (holders σ) ∧
  0 ≤ semaphore σ ≤ c ∧
  (forallb is_finished (tasks σ) = true → semaphore σ = c).
Proof.
  intros [Hinv _]%reachable_inv.
  pose proof (inv_sem _ _ _ Hinv). pose proof (inv_sem_nonneg _ _ _ Hinv).
  split_and!; try lia.
  intros Hall%finished_no_holders. unfold holders in *. lia.
Qed.

Lemma semaphore_balance_witness :
  let σ := mkState [Sleeping 1 [2; 3]%nat 2; Finished; Posting 1 [2; 3]%nat 1]
             0 [mkResult "k2" valid 200 "OK"] {["k2"]}
             [mkProgressLine 2 3 "k2" valid 200] in
  reachable ["k1"; "k2"; "k3"] 2 σ ∧
  semaphore σ = 2 - Z.of_nat (holders σ) ∧
  0 ≤ semaphore σ ≤ 2 ∧
  (forallb is_finished (tasks σ) = true → semaphore σ = 2).
Proof.
  cbn zeta.
  assert (Hreach : reachable ["k1"; "k2"; "k3"] 2
    (mkState [Sleeping 1 [2; 3]%nat 2; Finished; Posting 1 [2; 3]%nat 1]
       0 [mkResult "k2" valid 200 "OK"] {["k2"]}
       [mkProgressLine 2 3 "k2" valid 200])).
  { exists ["k1"; "k2"; "k3"], (mkState (replicate 3 Waiting) 2 [] ∅ []),
      [Acquire 0; Acquire 1; Receive 1 (Response 200 "{}");
       Receive 0 TimeoutError; Acquire 2].
    split; vm_compute; reflexivity. }
  split; [exact Hreach|]. exact (semaphore_balance _ _ _ Hreach).
Defined.

(** With a concurrency of 0 nothing ever happens: no action is possible in
    the initial state, so no request is made, no result is stored and
    [gather] never returns. *)
Theorem zero_concurrency_stalls (lines : list string) (keys : list string)
    (σ0 σ : State) (acts : list Action) :
  main_async_launch lines 0 = Launched keys σ0 →
  run keys acts σ0 = Some σ →
  acts = [] ∧ σ = σ0 ∧ results σ = [] ∧
  forallb is_finished (tasks σ) = false.
Proof.
  intros Hl Hrun.
  unfold main_async_launch in Hl. case_decide as Hn; [done|].
  simpl in Hl. injection Hl as <- <-.
  assert (Hacts : acts = []).
  { destruct acts as [|act acts]; [done|]. simpl in Hrun.
    destruct (fire (read_keys lines) act _) as [σ1|] eqn:Hfire; [|done].
    apply fire_cases in Hfire
      as [(i & _ & _ & Hpos & _)
         |[(i & o & a & rest & b & k & r & _ & Hi & _)
         |[(i & o & a & rest & b & k & d & b' & _ & Hi & _)
          |(i & d & rest & b & _ & Hi & _)]]]; simpl in *.
    - lia.
    - by apply lookup_replicate in Hi as [? _].
    - by apply lookup_replicate in Hi as [? _].
    - by apply lookup_replicate in Hi as [? _]. }
  subst acts. injection Hrun as <-. simpl. split_and!; try done.
  destruct (length (read_keys lines)); done.
Qed.

Lemma zero_concurrency_stalls_witness :
  main_async_launch ["k1"; "k2"] 0 =
    Launched ["k1"; "k2"] (mkState [Waiting; Waiting] 0 [] ∅ []) ∧
  run ["k1"; "k2"] [] (mkState [Waiting; Waiting] 0 [] ∅ []) =
    Some (mkState [Waiting; Waiting] 0 [] ∅ []) ∧
  fire ["k1"; "k2"] (Acquire 0) (mkState [Waiting; Waiting] 0 [] ∅ []) = None ∧
  forallb is_finished [Waiting; Waiting] = false.
Proof.
  assert (Hl : main_async_launch ["k1"; "k2"] 0 =
                 Launched ["k1"; "k2"] (mkState [Waiting; Waiting] 0 [] ∅ [])).
  { vm_compute. reflexivity. }
  assert (Hrun : run ["k1"; "k2"] [] (mkState [Waiting; Waiting] 0 [] ∅ []) =
                 Some (mkState [Waiting; Waiting] 0 [] ∅ [])) by reflexivity.
  split; [exact Hl|]. split; [exact Hrun|]. split; [reflexivity|].
  exact (proj2 (proj2 (proj2 (zero_concurrency_stalls _ _ _ _ _ Hl Hrun)))).
Defined.

(** ** A run can always complete *)

Lemma sum_list_with_pos {A} (f : A → nat) (l : list A) :
  (0 < sum_list_with f l)%nat → ∃ i x, l !! i = Some x ∧ (0 < f x)%nat.
Proof.
  induction l as [|y l IH]; simpl; [lia|]. intros Hpos.
  destruct (decide (0 < f y)%nat) as [Hy|Hy].
  - by exists 0%nat, y.
  - destruct IH as (i & x & Hi & Hx); [lia|]. by exists (S i), x.
Qed.

Lemma pending_zero (l : list Task) :
  sum_list_with unfinished l = 0%nat → forallb is_finished l = true.
Proof.
  induction l as [|t l IH]; simpl; [done|]. unfold unfinished at 1.
  destruct (is_finished t); simpl; [auto|lia].
Qed.

(** A task with a request under way is done once the request is answered
    with a 200. *)
Lemma finish_posting keys c σ i a rest b :
  inv keys c σ → tasks σ !! i = Some (Posting a rest b) →
  ∃ σ', fire keys (Receive i (Response 200 EmptyString)) σ = Some σ' ∧
        inv keys c σ' ∧ (pending σ' + 1 = pending σ)%nat.
Proof.
  intros Hinv Hi.
  assert (is_Some (keys !! i)) as [k Hk].
  { apply lookup_lt_is_Some. rewrite <- (inv_length _ _ _ Hinv).
    eauto using lookup_lt_Some. }
  eexists. split; [simpl; by rewrite Hi, Hk|]. split.
  - by eapply worker_finish_inv.
  - unfold pending, worker_finish. cbn [tasks].
    pose proof (sum_list_with_insert unfinished _ _ _ Finished Hi) as H.
    change (unfinished Finished) with 0%nat in H.
    change (unfinished (Posting a rest b)) with 1%nat in H. lia.
Qed.

Lemma finish_one keys c σ i t :
  inv keys c σ → tasks σ !! i = Some t → is_finished t = false →
  holds t = 1%nat ∨ 0 < semaphore σ →
  ∃ acts σ', run keys acts σ = Some σ' ∧ inv keys c σ' ∧
             (pending σ' + 1 = pending σ)%nat.
Proof.
  intros Hinv Hi Ht Hgo.
  pose proof (inv_tasks _ _ _ Hinv) as Hok.
  eapply Forall_lookup_1 in Hok; [|exact Hi].
  destruct t as [|a rest b|d rest b| |]; try done.
  - destruct Hgo as [?|Hpos]; [done|].
    assert (Hfire : fire keys (Acquire i) σ =
      Some (mkState (<[i := Posting 1 (seq 2 (MAX_RETRIES - 1))
                                    INITIAL_BACKOFF]> (tasks σ))
                    (semaphore σ - 1) (results σ) (success_set σ)
                    (console σ))).
    { simpl. rewrite Hi. apply Z.ltb_lt in Hpos. by rewrite Hpos. }
    pose proof (fire_inv _ _ _ _ _ Hinv Hfire) as Hinv1.
    destruct (finish_posting keys c _ i 1%nat (seq 2 (MAX_RETRIES - 1))
                INITIAL_BACKOFF Hinv1) as (σ' & Hf & Hinv' & Hp).
    { simpl. apply list_lookup_insert_eq. eauto using lookup_lt_Some. }
    exists [Acquire i; Receive i (Response 200 EmptyString)], σ'.
    split; [|split; [done|]].
    + cbn [run]. rewrite Hfire. cbn [mbind option_bind]. by rewrite Hf.
    + rewrite Hp. unfold pending. cbn [tasks].
      pose proof (sum_list_with_insert unfinished _ _ _
        (Posting 1 (seq 2 (MAX_RETRIES - 1)) INITIAL_BACKOFF) Hi) as H.
      change (unfinished Waiting) with 1%nat in H.
      change (unfinished (Posting _ _ _)) with 1%nat in H. lia.
  - destruct (finish_posting keys c σ i a rest b Hinv Hi)
      as (σ' & Hf & Hinv' & Hp).
    exists [Receive i (Response 200 EmptyString)], σ'.
    split; [|done]. cbn [run]. by rewrite Hf.
  - destruct Hok as (a & Ha & ->).
    replace (MAX_RETRIES - a)%nat with (S (MAX_RETRIES - S a)) in * by lia.
    cbn [seq] in Hi.
    assert (Hfire : fire keys (Wake i) σ =
      Some (set_task i (Posting (S a) (seq (S (S a)) (MAX_RETRIES - S a)) b) σ)).
    { simpl. by rewrite Hi. }
    pose proof (fire_inv _ _ _ _ _ Hinv Hfire) as Hinv1.
    destruct (finish_posting keys c _ i (S a)
                (seq (S (S a)) (MAX_RETRIES - S a)) b Hinv1)
      as (σ' & Hf & Hinv' & Hp).
    { simpl. apply list_lookup_insert_eq. eauto using lookup_lt_Some. }
    exists [Wake i; Receive i (Response 200 EmptyString)], σ'.
    split; [|split; [done|]].
    + cbn [run]. rewrite Hfire. cbn [mbind option_bind]. by rewrite Hf.
    + rewrite Hp. unfold pending, set_task. cbn [tasks].
      pose proof (sum_list_with_insert unfinished _ _ _
        (Posting (S a) (seq (S (S a)) (MAX_RETRIES - S a)) b) Hi) as H.
      change (unfinished (Sleeping _ _ _)) with 1%nat in H.
      change (unfinished (Posting _ _ _)) with 1%nat in H. lia.
Qed.

Lemma can_complete keys c σ :
  inv keys c σ → 1 ≤ c →
  ∃ acts σ', run keys acts σ = Some σ' ∧
             forallb is_finished (tasks σ') = true.
Proof.
  intros Hinv Hc. remember (pending σ) as n eqn:Hn. revert σ Hinv Hn.
  induction n as [|n IH]; intros σ Hinv Hn.
  - exists [], σ. split; [done|]. by apply pending_zero.
  - assert (∃ i t, tasks σ !! i = Some t ∧ is_finished t = false ∧
                   (holds t = 1%nat ∨ 0 < semaphore σ)) as (i & t & Hi & Ht & Hgo).
    { destruct (decide (0 < holders σ)%nat) as [Hh|Hh].
      - destruct (sum_list_with_pos holds _ Hh) as (i & t & Hi & Hpos).
        exists i, t. split; [done|]. destruct t; simpl in *; try lia; auto.
      - pose proof (inv_sem _ _ _ Hinv).
        destruct (sum_list_with_pos unfinished (tasks σ)) as (i & t & Hi & Hpos).
        { unfold pending in Hn. lia. }
        exists i, t. split; [done|]. split; [|right; lia].
        unfold unfinished in Hpos. destruct (is_finished t); [lia|done]. }
    destruct (finish_one keys c σ i t Hinv Hi Ht Hgo)
      as (acts1 & σ1 & Hrun1 & Hinv1 & Hp).
    destruct (IH σ1 Hinv1) as (acts2 & σ' & Hrun2 & Hall); [lia|].
    exists (acts1 ++ acts2)%list, σ'. split; [|done].
    by rewrite run_app, Hrun1.
Qed.

(** No deadlock: with a concurrency of at least 1, every state a run goes
    through can be continued to one in which all the tasks are done, the
    results stored so far being kept. *)
Theorem run_can_complete (lines : list string) (c : Z) (σ : State) :
  1 ≤ c →
  reachable lines c σ →
  ∃ acts σ',
    run (read_keys lines) acts σ = Some σ' ∧
    gathered lines c σ' ∧
    results σ `prefix_of` results σ'.
Proof.
  intros Hc Hreach.
  pose proof Hreach as [Hinv _]%reachable_inv.
  destruct (can_complete _ _ _ Hinv Hc) as (acts & σ' & Hrun & Hall).
  exists acts, σ'. split; [done|]. split.
  - split; [|done]. destruct Hreach as (keys & σ0 & acts0 & Hl & Hrun0).
    pose proof Hl as (-> & _)%launch_inv.
    exists (read_keys lines), σ0, (acts0 ++ acts)%list.
    split; [done|]. by rewrite run_app, Hrun0.
  - by eapply run_results_prefix.
Qed.

Lemma run_can_complete_witness :
  let σ := mkState [Sleeping 1 [2; 3]%nat 2; Waiting] 0 [] ∅ [] in
  reachable ["k1"; "k2"] 1 σ ∧
  ∃ acts σ',
    run (read_keys ["k1"; "k2"]) acts σ = Some σ' ∧
    gathered ["k1"; "k2"] 1 σ' ∧
    results σ `prefix_of` results σ'.
Proof.
  cbn zeta.
  assert (Hreach : reachable ["k1"; "k2"] 1
            (mkState [Sleeping 1 [2; 3]%nat 2; Waiting] 0 [] ∅ [])).
  { exists ["k1"; "k2"], (mkState (replicate 2 Waiting) 1 [] ∅ []),
      [Acquire 0; Receive 0 TimeoutError].
    split; vm_compute; reflexivity. }
  split; [exact Hreach|].
  apply (run_can_complete ["k1"; "k2"] 1); [lia|exact Hreach].
Defined.

(** ** The summary when no key is repeated *)

Lemma NoDup_valid_keys (rs : list Result) :
  NoDup (key <$> rs) →
  NoDup (key <$> filter (λ r, status r = valid) rs).
Proof.
  intros Hnd. eapply sublist_NoDup; [exact Hnd|].
  apply fmap_sublist, sublist_filter.
Qed.

(** After [gather] the error count of the summary is never negative and
    the four counts add up to the total. When no key stands on two lines
    the summary is exact: each count is the number of results with that
    status. *)
Theorem summary_exact_without_duplicates (lines : list string) (c : Z)
    (σ : State) :
  gathered lines c σ →
  let s := summary (read_keys lines) σ in
  0 ≤ n_error s ∧
  n_total s = n_valid s + n_invalid s + n_model_not_found s + n_error s ∧
  (NoDup (read_keys lines) →
   n_valid s = count_status valid (results σ) ∧
   n_invalid s = count_status invalid (results σ) ∧
   n_model_not_found s = count_status model_not_found (results σ) ∧
   n_error s = count_status error (results σ)).
Proof.
  intros Hg. cbn zeta.
  destruct (one_result_per_key_gathered lines c σ Hg) as (Hlen & Hperm).
  destruct Hg as [[Hinv _]%reachable_inv _].
  pose proof (count_status_total (results σ)) as Htot.
  pose proof (success_set_list _ _ _ Hinv) as HX.
  pose proof (size_list_to_set_le
    (key <$> filter (λ r, status r = valid) (results σ))) as Hle.
  rewrite <- HX, length_fmap in Hle.
  unfold summary. cbn [n_total n_valid n_invalid n_model_not_found n_error].
  rewrite <- Hlen.
  assert (Hcv : count_status valid (results σ) =
    Z.of_nat (length (filter (λ r, status r = valid) (results σ)))) by done.
  assert (Hce : 0 ≤ count_status error (results σ)) by (unfold count_status; lia).
  split_and!; try lia.
  intros Hnd.
  assert (size (success_set σ) =
          length (filter (λ r, status r = valid) (results σ))) as Hsize.
  { rewrite HX, <- (length_fmap key). apply size_list_to_set.
    apply NoDup_valid_keys. by rewrite Hperm. }
  split_and!; try done; lia.
Qed.

Lemma summary_exact_without_duplicates_witness :
  let lines := ["ka" +:+ LF; "kb" +:+ LF; "kc" +:+ LF] in
  let σ := mkState [Finished; Finished; Finished] 3
             [mkResult "ka" valid 200 "OK";
              mkResult "kb" error (-2) "Unexpected: boom";
              mkResult "kc" invalid 403 "no"]
             {["ka"]}
             [mkProgressLine 1 3 "ka" valid 200;
              mkProgressLine 2 3 "kb" error (-2);
              mkProgressLine 3 3 "kc" invalid 403] in
  gathered lines 3 σ ∧
  NoDup (read_keys lines) ∧
  summary (read_keys lines) σ = mkSummary 3 1 1 0 1 ∧
  n_error (summary (read_keys lines) σ) = count_status error (results σ).
Proof.
  cbn zeta.
  assert (Hg : gathered ["ka" +:+ LF; "kb" +:+ LF; "kc" +:+ LF] 3
    (mkState [Finished; Finished; Finished] 3
       [mkResult "ka" valid 200 "OK";
        mkResult "kb" error (-2) "Unexpected: boom";
        mkResult "kc" invalid 403 "no"]
       {["ka"]}
       [mkProgressLine 1 3 "ka" valid 200;
        mkProgressLine 2 3 "kb" error (-2);
        mkProgressLine 3 3 "kc" invalid 403])).
  { split; [|reflexivity].
    exists ["ka"; "kb"; "kc"], (mkState (replicate 3 Waiting) 3 [] ∅ []),
      [Acquire 0; Acquire 1; Acquire 2; Receive 0 (Response 200 "{}");
       Receive 1 (OtherException "boom"); Receive 2 (Response 403 "no")].
    split; vm_compute; reflexivity. }
  assert (Hnd : NoDup (read_keys ["ka" +:+ LF; "kb" +:+ LF; "kc" +:+ LF])).
  { change (read_keys _) with ["ka"; "kb"; "kc"].
    repeat (constructor; [set_unfold; intros H; intuition discriminate|]).
    constructor. }
  split; [exact Hg|]. split; [exact Hnd|]. split; [vm_compute; reflexivity|].
  exact (proj2 (proj2 (proj2
    (proj2 (proj2 (summary_exact_without_duplicates _ _ _ Hg)) Hnd)))).
Defined.

(** ** Stripping the lines *)

Lemma all_space_app s t :
  all_space (s +:+ t) = all_space s && all_space t.
Proof.
  induction s as [|c s IH]; simpl; [done|]. rewrite IH. by rewrite andb_assoc.
Qed.

Lemma lstrip_decompose s :
  ∃ pre, s = pre +:+ lstrip s ∧ all_space pre = true.
Proof.
  induction s as [|c s (pre & Hs & Hpre)]; simpl.
  - by exists EmptyString.
  - destruct (is_space c) eqn:Hc.
    + exists (String c pre). simpl. rewrite Hc, Hpre. split; [|done].
      change (String c s = String c (pre +:+ lstrip s)). by f_equal.
    + by exists EmptyString.
Qed.

Lemma lstrip_head s c t : lstrip s = String c t → is_space c = false.
Proof.
  induction s as [|a s IH]; simpl; [done|].
  destruct (is_space a) eqn:Ha; [done|]. by intros [= <- _].
Qed.

Lemma lstrip_all_space s : all_space s = true → lstrip s = EmptyString.
Proof.
  induction s as [|c s IH]; simpl; [done|].
  intros [Hc Hs]%andb_prop. rewrite Hc. auto.
Qed.

Lemma lstrip_id s :
  (∀ c t, s = String c t → is_space c = false) → lstrip s = s.
Proof.
  destruct s as [|c s]; simpl; [done|]. intros H.
  by rewrite (H c s eq_refl).
Qed.

Lemma rstrip_decompose s :
  ∃ post, s = rstrip s +:+ post ∧ all_space post = true.
Proof.
  induction s as [|c s (post & Hs & Hpost)]; simpl.
  - by exists EmptyString.
  - destruct (rstrip s) as [|d u] eqn:Hr.
    + destruct (is_space c) eqn:Hc.
      * exists (String c post). simpl. rewrite Hc, Hpost.
        split; [|done]. change (String c s = String c post).
        f_equal. exact Hs.
      * exists post. split; [|done].
        change (String c s = String c post). f_equal. exact Hs.
    + exists post. split; [|done].
      change (String c s = String c (String d u +:+ post)). by f_equal.
Qed.

Lemma rstrip_head s :
  (∀ c t, s = String c t → is_space c = false) →
  ∀ c t, rstrip s = String c t → is_space c = false.
Proof.
  destruct s as [|a s]; simpl; [done|]. intros H c t.
  pose proof (H a s eq_refl) as Ha. rewrite Ha.
  destruct (rstrip s); by intros [= <- _].
Qed.

Lemma rstrip_last s t c :
  rstrip s = t +:+ String c EmptyString → is_space c = false.
Proof.
  revert t. induction s as [|a s IH]; intros t; simpl.
  - by destruct t.
  - destruct (rstrip s) as [|d u] eqn:Hr.
    + destruct (is_space a) eqn:Ha; [by destruct t|].
      destruct t as [|b t]; simpl; [by intros [= <-]|].
      intros [= _ H]. by destruct t.
    + destruct t as [|b t]; simpl; [done|].
      intros [= _ H]. by apply (IH t).
Qed.

Lemma rstrip_cons a s :
  rstrip (String a s) =
  match rstrip s with
  | EmptyString => if is_space a then EmptyString else String a EmptyString
  | t => String a t
  end.
Proof. reflexivity. Qed.

Lemma rstrip_idemp s : rstrip (rstrip s) = rstrip s.
Proof.
  induction s as [|a s IH]; [done|]. rewrite (rstrip_cons a s).
  destruct (rstrip s) as [|d u] eqn:Hr.
  - destruct (is_space a) eqn:Ha; [done|]. simpl. by rewrite Ha.
  - by rewrite rstrip_cons, IH.
Qed.

Lemma strip_idemp s : strip (strip s) = strip s.
Proof.
  unfold strip. rewrite (lstrip_id (rstrip (lstrip s))).
  - apply rstrip_idemp.
  - apply rstrip_head. intros c t. apply lstrip_head.
Qed.

Lemma strip_decompose s :
  ∃ pre post,
    s = pre +:+ strip s +:+ post ∧
    all_space pre = true ∧ all_space post = true.
Proof.
  destruct (lstrip_decompose s) as (pre & Hs & Hpre).
  destruct (rstrip_decompose (lstrip s)) as (post & Hl & Hpost).
  exists pre, post. unfold strip. by rewrite <- Hl.
Qed.

Lemma strip_head s c t : strip s = String c t → is_space c = false.
Proof. apply rstrip_head. intros c' t'. apply lstrip_head. Qed.

Lemma strip_empty_iff s : strip s = EmptyString ↔ all_space s = true.
Proof.
  split.
  - intros He. destruct (strip_decompose s) as (pre & post & Hs & Hpre & Hpost).
    rewrite He in Hs.
    by rewrite Hs, !all_space_app, Hpre, Hpost.
  - intros Hs. unfold strip. by rewrite lstrip_all_space.
Qed.

Lemma read_keys_stripped lines :
  Forall (λ k, k ≠ EmptyString ∧ strip k = k) (read_keys lines).
Proof.
  unfold read_keys. apply Forall_fmap, Forall_forall.
  intros line [Hne _]%list_elem_of_filter. simpl.
  split; [done|apply strip_idemp].
Qed.

(** The keys read from the input are the lines that hold more than white
    space, in the order of the file, each without the white space around
    it and otherwise unchanged: a line is its key between two runs of white
    space, no key is empty or starts or ends with a white space character,
    there are at most as many keys as lines, and reading the keys again
    gives the same keys. *)
Theorem read_keys_clean (lines : list string) :
  read_keys lines =
    strip <$> filter (λ line, all_space line = false) lines ∧
  Forall2 (λ line k, ∃ pre post,
             line = pre +:+ k +:+ post ∧
             all_space pre = true ∧ all_space post = true)
          (filter (λ line, all_space line = false) lines)
          (read_keys lines) ∧
  Forall (λ k, k ≠ EmptyString ∧ strip k = k ∧
               (∀ c t, k = String c t → is_space c = false) ∧
               (∀ t c, k = t +:+ String c EmptyString → is_space c = false))
         (read_keys lines) ∧
  (length (read_keys lines) ≤ length lines)%nat ∧
  read_keys (read_keys lines) = read_keys lines.
Proof.
  pose proof (read_keys_stripped lines) as Hclean.
  assert (Heq : read_keys lines =
            strip <$> filter (λ line, all_space line = false) lines).
  { unfold read_keys. f_equal. apply list_filter_iff. intros line.
    rewrite strip_empty_iff. by destruct (all_space line). }
  split_and!.
  - exact Heq.
  - rewrite Heq. apply Forall2_fmap_r, Forall_Forall2_diag, Forall_forall.
    intros line _. apply strip_decompose.
  - eapply Forall_impl; [exact Hclean|]. intros k [Hne Hk].
    split_and!; [done..| |].
    + intros c t Hc. apply (strip_head k c t). by rewrite Hk.
    + intros t c Hc. apply (rstrip_last (lstrip k) t c).
      fold (strip k). by rewrite Hk.
  - unfold read_keys. rewrite length_fmap. apply length_filter.
  - revert Hclean. generalize (read_keys lines). intros ks Hks.
    unfold read_keys. induction Hks as [|k ks [Hne Hk] _ IH]; [done|].
    rewrite filter_cons, decide_True by (by rewrite Hk).
    csimpl. by rewrite Hk, IH.
Qed.

(** ** Feeding the success file back *)

Lemma string_app_cons c s t : String c s +:+ t = String c (s +:+ t).
Proof. reflexivity. Qed.

Lemma string_app_assoc s t u : (s +:+ t) +:+ u = s +:+ (t +:+ u).
Proof.
  induction s as [|c s IH]; [done|]. by rewrite !string_app_cons, IH.
Qed.

Lemma string_app_nil_l s : EmptyString +:+ s = s.
Proof. reflexivity. Qed.

Lemma written_cons k ks : written (k :: ks) = k +:+ LF +:+ written ks.
Proof.
  unfold written.
  assert (Hacc : ∀ ks acc,
    foldl (λ content k, content +:+ (k +:+ LF)) acc ks =
    acc +:+ foldl (λ content k, content +:+ (k +:+ LF)) EmptyString ks).
  { clear. induction ks as [|k ks IH]; intros acc; simpl.
    - induction acc as [|c acc IHa]; [done|].
      by rewrite string_app_cons, <- IHa.
    - rewrite IH, (IH (EmptyString +:+ (k +:+ LF))).
      by rewrite string_app_nil_l, string_app_assoc. }
  simpl. rewrite Hacc. by rewrite string_app_nil_l, string_app_assoc.
Qed.

Lemma universal_newlines_line k rest :
  no_newline k = true →
  universal_newlines (k +:+ LF +:+ rest) =
  k +:+ LF +:+ universal_newlines rest.
Proof.
  induction k as [|c k IH]; [done|]. cbn [no_newline].
  intros [[_ Hcr]%andb_prop Hk]%andb_prop.
  rewrite !string_app_cons. cbn [universal_newlines].
  apply negb_true_iff in Hcr. rewrite Hcr. by rewrite IH.
Qed.

Lemma file_lines_line k rest :
  no_newline k = true →
  file_lines (k +:+ LF +:+ rest) = (k +:+ LF) :: file_lines rest.
Proof.
  induction k as [|c k IH]; [done|]. cbn [no_newline].
  intros [[Hlf _]%andb_prop Hk]%andb_prop.
  rewrite !string_app_cons. cbn [file_lines].
  apply negb_true_iff in Hlf. rewrite Hlf. by rewrite IH.
Qed.

Lemma read_file_written ks :
  Forall (λ k, no_newline k = true) ks →
  read_file (written ks) = (λ k, k +:+ LF) <$> ks.
Proof.
  unfold read_file. induction 1 as [|k ks Hk _ IH]; [done|].
  rewrite written_cons, universal_newlines_line, file_lines_line by done.
  csimpl. by rewrite IH.
Qed.

Lemma rstrip_all_space s : all_space s = true → rstrip s = EmptyString.
Proof.
  induction s as [|c s IH]; [done|]. cbn [all_space].
  intros [Hc Hs]%andb_prop. by rewrite rstrip_cons, (IH Hs), Hc.
Qed.

Lemma rstrip_app_space t post :
  all_space post = true → rstrip (t +:+ post) = rstrip t.
Proof.
  intros Hpost. induction t as [|a t IH].
  - rewrite string_app_nil_l. by apply rstrip_all_space.
  - by rewrite string_app_cons, !rstrip_cons, IH.
Qed.

Lemma lstrip_app s post :
  lstrip (s +:+ post) =
  if all_space s then lstrip post else lstrip s +:+ post.
Proof.
  induction s as [|c s IH]; [done|].
  rewrite string_app_cons. cbn [lstrip all_space].
  destruct (is_space c); [exact IH|done].
Qed.

Lemma strip_app_space s post :
  all_space post = true → strip (s +:+ post) = strip s.
Proof.
  intros Hpost. unfold strip. rewrite lstrip_app.
  destruct (all_space s) eqn:Hs.
  - by rewrite (lstrip_all_space post), (lstrip_all_space s).
  - by apply rstrip_app_space.
Qed.

Lemma no_newline_app s t :
  no_newline (s +:+ t) = no_newline s && no_newline t.
Proof.
  induction s as [|c s IH]; [done|].
  rewrite string_app_cons. cbn [no_newline]. rewrite IH.
  by rewrite !andb_assoc.
Qed.

Lemma no_newline_strip s : no_newline s = true → no_newline (strip s) = true.
Proof.
  destruct (strip_decompose s) as (pre & post & Hs & _).
  intros H. rewrite Hs, !no_newline_app in H.
  by apply andb_prop in H as [_ [? _]%andb_prop].
Qed.

Lemma no_cr_universal_newlines s : no_cr (universal_newlines s) = true.
Proof.
  assert (H : ∀ n s, (String.length s ≤ n)%nat →
                     no_cr (universal_newlines s) = true).
  { clear s. induction n as [|n IH]; intros [|c s] Hlen; simpl in Hlen;
      try done; try lia.
    cbn [universal_newlines]. destruct (Ascii.eqb c CR_char) eqn:Hc.
    - destruct s as [|d s]; [done|]. simpl in Hlen.
      destruct (Ascii.eqb d LF_char); cbn [no_cr];
        (apply andb_true_intro; split; [reflexivity|]);
        apply IH; simpl; lia.
    - cbn [no_cr]. rewrite Hc. apply andb_true_intro.
      split; [reflexivity|]. apply IH. lia. }
  by apply (H (String.length s)).
Qed.

Lemma file_lines_ok s : no_cr s = true → Forall line_ok (file_lines s).
Proof.
  induction s as [|c s IH]; [constructor|]. cbn [no_cr file_lines].
  intros [Hcr Hs]%andb_prop. specialize (IH Hs).
  destruct (Ascii.eqb c LF_char) eqn:Hlf.
  - constructor; [|done]. exists EmptyString. split; [done|]. right.
    apply Ascii.eqb_eq in Hlf. by subst c.
  - assert (Hc : no_newline (String c EmptyString) = true).
    { cbn [no_newline]. by rewrite Hlf, Hcr. }
    destruct IH as [|line rest (body & Hbody & Hline) Hrest].
    + constructor; [|done]. exists (String c EmptyString). by split; [|left].
    + constructor; [|done]. exists (String c body). split.
      * cbn [no_newline] in *. by rewrite Hlf, Hcr, Hbody.
      * destruct Hline as [-> | ->]; [by left|by right].
Qed.

(** The keys read from a file hold no line break. *)
Lemma keys_no_newline content :
  Forall (λ k, no_newline k = true) (read_keys (read_file content)).
Proof.
  unfold read_keys. apply Forall_fmap, Forall_forall.
  intros line [_ Hin]%list_elem_of_filter. simpl.
  pose proof (file_lines_ok _ (no_cr_universal_newlines content)) as Hok.
  rewrite Forall_forall in Hok.
  destruct (Hok line Hin) as (body & Hbody & [-> | ->]).
  - by apply no_newline_strip.
  - rewrite strip_app_space by done. by apply no_newline_strip.
Qed.

Lemma read_keys_written ks :
  Forall (λ k, no_newline k = true) ks →
  Forall (λ k, k ≠ EmptyString ∧ strip k = k) ks →
  read_keys (read_file (written ks)) = ks.
Proof.
  intros Hnl Hclean. rewrite read_file_written by done.
  clear Hnl. unfold read_keys.
  induction Hclean as [|k ks [Hne Hk] _ IH]; [done|].
  csimpl. rewrite filter_cons.
  assert (Hs : strip (k +:+ LF) = k) by (by rewrite strip_app_space).
  rewrite decide_True by (by rewrite Hs). csimpl. by rewrite Hs, IH.
Qed.

(** The success file can be fed back as input: when the keys of a run come
    from a text file, reading the success file the run writes gives the
    sorted keys of the success set, one key per line, none lost, split or
    changed. *)
Theorem success_file_feeds_back (content : string) (c : Z) (σ : State) :
  reachable (read_file content) c σ →
  read_keys (read_file (written (sorted (elements (success_set σ))))) =
  sorted (elements (success_set σ)).
Proof.
  intros [Hinv _]%reachable_inv.
  assert (Hin : ∀ k, k ∈ sorted (elements (success_set σ)) →
                     k ∈ read_keys (read_file content)).
  { intros k. rewrite sorted_Permutation, elem_of_elements.
    rewrite (inv_success _ _ _ Hinv). intros (r & Hr & <- & _).
    pose proof (inv_results _ _ _ Hinv) as Hres.
    apply list_elem_of_lookup in Hr as [j Hj].
    destruct (Forall2_lookup_r _ _ _ _ _ Hres Hj) as (p & _ & i & _ & Hi).
    by eapply list_elem_of_lookup_2. }
  apply read_keys_written; apply Forall_forall; intros k Hk%Hin.
  - pose proof (keys_no_newline content) as H.
    rewrite Forall_forall in H. auto.
  - pose proof (read_keys_stripped (read_file content)) as H.
    rewrite Forall_forall in H. auto.
Qed.

Lemma success_file_feeds_back_witness :
  let content := " kb " +:+ String CR_char (String LF_char "ka") +:+ LF in
  let σ := mkState [Finished; Finished] 2
             [mkResult "kb" valid 200 "OK"; mkResult "ka" valid 200 "OK"]
             {["ka"; "kb"]}
             [mkProgressLine 1 2 "kb" valid 200;
              mkProgressLine 2 2 "ka" valid 200] in
  reachable (read_file content) 2 σ ∧
  written (sorted (elements (success_set σ))) = "ka" +:+ LF +:+ "kb" +:+ LF ∧
  read_keys (read_file (written (sorted (elements (success_set σ))))) =
    ["ka"; "kb"].
Proof.
  cbn zeta.
  assert (Hreach : reachable
    (read_file (" kb " +:+ String CR_char (String LF_char "ka") +:+ LF)) 2
    (mkState [Finished; Finished] 2
       [mkResult "kb" valid 200 "OK"; mkResult "ka" valid 200 "OK"]
       {["ka"; "kb"]}
       [mkProgressLine 1 2 "kb" valid 200;
        mkProgressLine 2 2 "ka" valid 200])).
  { exists ["kb"; "ka"], (mkState (replicate 2 Waiting) 2 [] ∅ []),
      [Acquire 0; Acquire 1; Receive 0 (Response 200 "{}");
       Receive 1 (Response 200 "{}")].
    split; vm_compute; reflexivity. }
  split; [exact Hreach|]. split; [vm_compute; reflexivity|].
  rewrite (success_file_feeds_back _ _ _ Hreach).
  vm_compute. reflexivity.
Defined.

(** ** The values of http_status *)

(** When the service answers with status codes that are not negative, the
    two negative values of http_status tell what went wrong on the last
    request: -1 stands for a timeout or a client error, told apart by the
    detail, which is the literal Timeout for the first and starts with
    ClientError: for the second; -2 stands for any other exception; every
    other value is the status code of the last response. *)
Theorem sentinels_tell_failures (k : string) (net : nat → Outcome) :
  (∀ a code text, net a = Response code text → 0 ≤ code) →
  ∃ a r,
    last (test_key k net).1 = Some (Post a) ∧
    (test_key k net).2 = Some r ∧
    (http_status r = -1 ↔ net a = TimeoutError ∨ ∃ e, net a = ClientError e) ∧
    (http_status r = -1 ∧ detail r = "Timeout" ↔ net a = TimeoutError) ∧
    (http_status r = -2 ↔ ∃ e, net a = OtherException e) ∧
    (0 ≤ http_status r ↔ ∃ text, net a = Response (http_status r) text).
Proof.
  intros Hcode.
  assert (Hone : ∀ a b r, attempt_body k a b (net a) = Return r →
    (http_status r = -1 ↔ net a = TimeoutError ∨ ∃ e, net a = ClientError e) ∧
    (http_status r = -1 ∧ detail r = "Timeout" ↔ net a = TimeoutError) ∧
    (http_status r = -2 ↔ ∃ e, net a = OtherException e) ∧
    (0 ≤ http_status r ↔ ∃ text, net a = Response (http_status r) text)).
  { intros a b r Hr.
    destruct (net a) as [code text| |e|e] eqn:Ha.
    - specialize (Hcode a code text Ha).
      assert (http_status r = code) as Hhttp.
      { revert Hr. unfold attempt_body.
        repeat case_match; try done; by intros [= <-]. }
      rewrite Hhttp. split_and!; [naive_solver lia..|].
      split; [by exists text|done].
    - assert (r = mkResult k error (-1) "Timeout") as ->.
      { revert Hr. unfold attempt_body. case_match; [done|]. by intros [= <-]. }
      simpl. split_and!; naive_solver lia.
    - assert (r = mkResult k error (-1) ("ClientError: " +:+ slice_to 300 e))
        as ->.
      { revert Hr. unfold attempt_body. case_match; [done|]. by intros [= <-]. }
      simpl. split_and!; [naive_solver lia| |naive_solver lia..].
      split; [|done]. intros [_ Hd]. discriminate Hd.
    - assert (r = mkResult k error (-2) ("Unexpected: " +:+ slice_to 300 e))
        as ->.
      { revert Hr. unfold attempt_body. by intros [= <-]. }
      simpl. split_and!; naive_solver lia. }
  destruct (test_key_cases k net)
    as [(r & Hr & ->) | [(_ & r & Hr & ->) | (_ & _ & r & Hr & ->)]];
    eexists _, r; (split; [reflexivity|]); (split; [reflexivity|]);
    eapply Hone; eauto.
Qed.

Lemma sentinels_tell_failures_witness :
  let net := λ a : nat,
    match a with
    | 1%nat => Response 429 "slow down"
    | 2%nat => ClientError "Connection reset by peer"
    | _ => TimeoutError
    end in
  (∀ a code text, net a = Response code text → 0 ≤ code) ∧
  (test_key "AIzaSy-1" net).2 =
    Some (mkResult "AIzaSy-1" error (-1) "Timeout") ∧
  ∃ a r,
    last (test_key "AIzaSy-1" net).1 = Some (Post a) ∧
    (test_key "AIzaSy-1" net).2 = Some r ∧
    (http_status r = -1 ↔ net a = TimeoutError ∨ ∃ e, net a = ClientError e) ∧
    (http_status r = -1 ∧ detail r = "Timeout" ↔ net a = TimeoutError) ∧
    (http_status r = -2 ↔ ∃ e, net a = OtherException e) ∧
    (0 ≤ http_status r ↔ ∃ text, net a = Response (http_status r) text).
Proof.
  cbn zeta.
  assert (Hcode : ∀ (a : nat) code text,
    match a with
    | 1%nat => Response 429 "slow down"
    | 2%nat => ClientError "Connection reset by peer"
    | _ => TimeoutError
    end = Response code text → 0 ≤ code).
  { intros [|[|[|a]]] code text; try done. intros [= <- _]. lia. }
  split; [exact Hcode|]. split; [reflexivity|].
  exact (sentinels_tell_failures "AIzaSy-1" _ Hcode).
Defined.

Lemma results_are_probes_witness :
  let σ := mkState [Finished; Posting 2 [3%nat] 2] 0
             [mkResult "k1" error 500 "oops"] ∅
             [mkProgressLine 1 2 "k1" error 500] in
  reachable ["k1"; "k2"] 1 σ ∧
  (∀ r, r ∈ results σ → ∃ net, (test_key (key r) net).2 = Some r) ∧
  Raised ∉ tasks σ.
Proof.
  cbn zeta.
  assert (Hreach : reachable ["k1"; "k2"] 1
    (mkState [Finished; Posting 2 [3%nat] 2] 0
       [mkResult "k1" error 500 "oops"] ∅
       [mkProgressLine 1 2 "k1" error 500])).
  { exists ["k1"; "k2"], (mkState (replicate 2 Waiting) 1 [] ∅ []),
      [Acquire 0; Receive 0 (Response 429 "wait"); Wake 0;
       Receive 0 (Response 500 "oops"); Acquire 1;
       Receive 1 TimeoutError; Wake 1].
    split; vm_compute; reflexivity. }
  split; [exact Hreach|]. exact (results_are_probes _ _ _ Hreach).
Defined.
